(** * sparse_dot: coordinate-format sparse operator applied to a dense batch

    Shallow embedding of the kernels of [numba_on_dask.ipynb]:
    [sparse_dot], [sparse_dot_pa], [sparse_dot_guvec], [apply_A], the
    operator load cell, and the chunked evaluation through
    [xr.apply_ufunc].

    The scalar type of the arrays is a parameter of the development
    ([F] with [zero], [add], [mul]); no law is assumed about it unless
    a lemma says so, hence every unconditional statement holds for
    IEEE binary64 with its rounding.  Module [Float64] instantiates
    the kernels at Rocq's primitive binary64 floats.

    Indexing follows the statements as Python and NumPy define them:
    a negative index counts from the end and an index out of range
    raises [IndexError].  numba compiles the kernels without bounds
    checks, so what an out-of-range access does in the compiled code
    is not defined; the statements on valid operators concern runs in
    which no such access occurs. *)

From Stdlib Require Import ZArith Lia Ring PrimFloat.
From stdpp Require Import base numbers option list.

(** ** Exceptions and results *)

(** [IndexError] is the only exception a statement of the kernels can
    raise.  [ShapeMismatch] and [InvalidOperator] are the error names
    of the specification; no statement of the notebook raises them. *)
Inductive exn : Set :=
| IndexError
| ShapeMismatch
| InvalidOperator.

Inductive result (A : Type) : Type :=
| Ok (a : A)
| Err (e : exn).
Arguments Ok {A} a.
Arguments Err {A} e.

(** ** Indexing *)

(** NumPy index normalisation along an axis of length [n]: an index in
    [0, n) is used as it is, an index in [-n, 0) counts from the end,
    anything else raises [IndexError] (here [None]).  The compiled
    kernels wrap a negative index in the same way but check no range:
    [None] marks an access that they would make unchecked. *)
Definition norm_index (n : nat) (i : Z) : option nat :=
  if bool_decide (0 ≤ i < Z.of_nat n)%Z then Some (Z.to_nat i)
  else if bool_decide (- Z.of_nat n ≤ i < 0)%Z then Some (Z.to_nat (Z.of_nat n + i))
  else None.

(** [a[i]] for a one-dimensional array held as a list. *)
Definition getitem1 {A} (a : list A) (i : Z) : option A :=
  k ← norm_index (length a) i; a !! k.

(** [a[i] = v] for a one-dimensional array. *)
Definition setitem1 {A} (a : list A) (i : Z) (v : A) : option (list A) :=
  k ← norm_index (length a) i; Some (<[k:=v]> a).

(** [range(n)]. *)
Definition range (n : nat) : list nat := seq 0 n.

(** ** Loops over a mutable buffer *)

(** How a loop over a buffer ends: normally, or by an exception.  Both
    carry the buffer as the loop left it, so the writes made before an
    exception stay visible to whoever holds the buffer. *)
Inductive outcome (St : Type) : Type :=
| Done (buf : St)
| Raised (e : exn) (buf : St).
Arguments Done {St} buf.
Arguments Raised {St} e buf.

(** [for x in xs: body]. *)
Fixpoint for_each {X St} (xs : list X) (body : X → St → outcome St)
    (buf : St) : outcome St :=
  match xs with
  | [] => Done buf
  | x :: xs' =>
      match body x buf with
      | Done buf' => for_each xs' body buf'
      | Raised e buf' => Raised e buf'
      end
  end.

(** A statement that either stores into the buffer or raises
    [IndexError] and leaves the buffer as it was.  The second case is
    Python's; it stands for an access outside an array, which the
    compiled kernels do not check, and the statements about operators
    that meet their invariant never reach it. *)
Definition stmt {St} (s : St → option St) (buf : St) : outcome St :=
  match s buf with
  | Some buf' => Done buf'
  | None => Raised IndexError buf
  end.

(** The buffer of an outcome seen through [f]. *)
Definition outcome_map {St St'} (f : St → St') (o : outcome St) : outcome St' :=
  match o with
  | Done buf => Done (f buf)
  | Raised e buf => Raised e (f buf)
  end.

(** The buffer an outcome carries, however the loop ended. *)
Definition buffer_of {St} (o : outcome St) : St :=
  match o with
  | Done buf => buf
  | Raised _ buf => buf
  end.

(** The indices NumPy accepts along an axis of length [n]. *)
Definition index_ok (n : nat) (i : Z) : Prop := (- Z.of_nat n ≤ i < Z.of_nat n)%Z.

(** The index in [0, n) that an accepted index stands for. *)
Definition wrap_index (n : nat) (i : Z) : Z :=
  if bool_decide (- Z.of_nat n ≤ i < 0)%Z then (Z.of_nat n + i)%Z else i.

Section Kernel.

Variable F : Type.
Variable zero : F.
Variables add mul : F → F → F.

Local Instance F_inhabited : Inhabited F := populate zero.

(** ** Two-dimensional arrays *)

(** A dense row-major array of shape [(length rows, shape1)].  The
    second extent is stored because an array with no row still has
    one. *)
Record ndarray2 : Type := mk_ndarray2 {
  shape1 : nat;
  rows : list (list F)
}.

Definition shape0 (a : ndarray2) : nat := length (rows a).

(** Every row has [shape1] cells: the arrays NumPy builds are
    rectangular. *)
Definition wf (a : ndarray2) : Prop :=
  Forall (λ r, length r = shape1 a) (rows a).

#[global] Instance wf_dec (a : ndarray2) : Decision (wf a).
Proof. unfold wf. apply _. Defined.

(** [np.zeros([n, m])]. *)
Definition zeros (n m : nat) : ndarray2 :=
  {| shape1 := m; rows := replicate n (replicate m zero) |}.

(** [a[j, k]]: each index is checked against its own axis. *)
Definition getitem2 (a : ndarray2) (j k : Z) : option F :=
  j' ← norm_index (shape0 a) j;
  k' ← norm_index (shape1 a) k;
  r ← rows a !! j';
  r !! k'.

(** [a[j, k] = v]. *)
Definition setitem2 (a : ndarray2) (j k : Z) (v : F) : option ndarray2 :=
  j' ← norm_index (shape0 a) j;
  k' ← norm_index (shape1 a) k;
  r ← rows a !! j';
  _ ← r !! k';
  Some {| shape1 := shape1 a; rows := <[j' := <[k' := v]> r]> (rows a) |}.

(** [buf] with row [j] replaced. *)
Definition set_row (j : nat) (r : list F) (buf : ndarray2) : ndarray2 :=
  {| shape1 := shape1 buf; rows := <[j := r]> (rows buf) |}.

(** The statement [data_out[j, row[i]] += data[j, col[i]]*S[i]].
    Python evaluates the target's index, reads the target, evaluates
    the right-hand side, then stores; a failing read raises before
    anything is stored. *)
Definition accumulate (data : ndarray2) (col row : list Z) (S : list F)
    (j i : nat) (data_out : ndarray2) : option ndarray2 :=
  r ← getitem1 row (Z.of_nat i);
  old ← getitem2 data_out (Z.of_nat j) r;
  c ← getitem1 col (Z.of_nat i);
  x ← getitem2 data (Z.of_nat j) c;
  w ← getitem1 S (Z.of_nat i);
  setitem2 data_out (Z.of_nat j) r (add old (mul x w)).

(** [sparse_dot(data_out, data, col, row, S)]. *)
Definition sparse_dot (data_out data : ndarray2) (col row : list Z)
    (S : list F) : outcome ndarray2 :=
  for_each (range (shape0 data)) (λ j,
    for_each (range (length S)) (λ i,
      stmt (accumulate data col row S j i))) data_out.

(** [sparse_dot_pa(data_out, data, col, row, S)]: the same statements
    under [prange].  The iterations of [j] run on several threads; one
    run is given by the order [sched] in which the statements [(j, i)]
    take effect.  A statement of row [j] reads and writes only row [j]
    of [data_out], so the read-modify-write of [+=] is one step here. *)
Definition sparse_dot_pa (sched : list (nat * nat))
    (data_out data : ndarray2) (col row : list Z) (S : list F) :
    outcome ndarray2 :=
  for_each sched (λ p, stmt (accumulate data col row S p.1 p.2)) data_out.

(** The runs [prange] allows over [n] rows and [nnz] nonzeros: every
    statement belongs to a row below [n], and the statements of each
    row take effect in the order of [range(nnz)], whatever happens in
    between on other rows. *)
Definition is_schedule (n nnz : nat) (sched : list (nat * nat)) : Prop :=
  Forall (λ p, p.1 < n) sched ∧
  Forall (λ j, (filter (λ p, p.1 = j) sched).*2 = range nnz) (range n).

#[global] Instance is_schedule_dec n nnz sched : Decision (is_schedule n nnz sched).
Proof. unfold is_schedule. apply _. Defined.

(** ** The one-dimensional kernel *)

(** The statement [data_out[row[i]] += data[col[i]]*S[i]] of
    [sparse_dot_guvec], on one row. *)
Definition accumulate1 (data : list F) (col row : list Z) (S : list F)
    (i : nat) (data_out : list F) : option (list F) :=
  r ← getitem1 row (Z.of_nat i);
  old ← getitem1 data_out r;
  c ← getitem1 col (Z.of_nat i);
  x ← getitem1 data c;
  w ← getitem1 S (Z.of_nat i);
  setitem1 data_out r (add old (mul x w)).

(** [sparse_dot_guvec(data, col, row, S, shape_arr, data_out)], the
    body that numba broadcasts over the leading axis.  [shape_arr] only
    carries the output extent and is never read. *)
Definition sparse_dot_guvec (data : list F) (col row : list Z) (S : list F)
    (shape_arr : list Z) (data_out : list F) : outcome (list F) :=
  for_each (range (length S)) (λ i, stmt (accumulate1 data col row S i))
    data_out.

(** What the one-dimensional statement stores when every index is in
    range: the row with cell [row[i]] increased. *)
Definition row_step (data : list F) (col row : list Z) (S : list F)
    (i : nat) (data_out : list F) : list F :=
  let r := Z.to_nat (row !!! i) in
  <[r := add (data_out !!! r) (mul (data !!! Z.to_nat (col !!! i)) (S !!! i))]>
    data_out.

(** ** The operator and [apply_A] *)

(** The notebook keeps the operator in the globals [col], [row], [S]
    and writes the output extent as the literal [120000] inside
    [apply_A]; here they travel together.  [input_width] is the extent
    the batches are meant to have ([240000] in the notebook); no
    statement of the notebook reads it. *)
Record SparseOperator : Type := mk_operator {
  op_col : list Z;
  op_row : list Z;
  op_S : list F;
  input_width : nat;
  output_width : nat
}.

(** The invariant the data model states for an operator. *)
Definition valid_operator (op : SparseOperator) : Prop :=
  length (op_col op) = length (op_S op) ∧
  length (op_row op) = length (op_S op) ∧
  Forall (λ c, 0 ≤ c < Z.of_nat (input_width op))%Z (op_col op) ∧
  Forall (λ r, 0 ≤ r < Z.of_nat (output_width op))%Z (op_row op).

#[global] Instance valid_operator_dec op : Decision (valid_operator op).
Proof. unfold valid_operator. apply _. Defined.

(** An exception leaves [apply_A] and takes the local [data_out] with
    it. *)
Definition returned {St} (o : outcome St) : result St :=
  match o with
  | Done buf => Ok buf
  | Raised e _ => Err e
  end.

Definition kernel : Type :=
  ndarray2 → ndarray2 → list Z → list Z → list F → outcome ndarray2.

(** The body of [apply_A] once [func] is chosen. *)
Definition apply_A_with (func : kernel) (op : SparseOperator)
    (data : ndarray2) : result ndarray2 :=
  let data_out := zeros (shape0 data) (output_width op) in
  returned (func data_out data (op_col op) (op_row op) (op_S op)).

(** [apply_A(data)], that is [parallel=False]. *)
Definition apply_A (op : SparseOperator) (data : ndarray2) : result ndarray2 :=
  apply_A_with sparse_dot op data.

(** [apply_A(data, parallel=True)] in the run [sched]. *)
Definition apply_A_pa (sched : list (nat * nat)) (op : SparseOperator)
    (data : ndarray2) : result ndarray2 :=
  apply_A_with (sparse_dot_pa sched) op data.

(** ** Loading the operator *)

(** The variables read from [weights.nc]: one-based [int32] indices and
    the weights. *)
Record dataset : Type := mk_dataset {
  ds_col : list Z;
  ds_row : list Z;
  ds_S : list F
}.

(** [int32] arithmetic wraps. *)
Definition wrap32 (z : Z) : Z := ((z + 2 ^ 31) `mod` 2 ^ 32 - 2 ^ 31)%Z.

(** The load cell: [col = ds['col'].values - 1], [row =
    ds['row'].values - 1], [S = ds['S'].values].  The two widths are
    the extents the rest of the notebook uses with these arrays.  No
    statement of the cell inspects an index, so the cell always
    completes. *)
Definition load (ds : dataset) (in_width out_width : nat) :
    result SparseOperator :=
  Ok {| op_col := (λ c, wrap32 (c - 1)) <$> ds_col ds;
        op_row := (λ r, wrap32 (r - 1)) <$> ds_row ds;
        op_S := ds_S ds;
        input_width := in_width;
        output_width := out_width |}.

(** ** Chunked evaluation *)

(** Consecutive blocks of [chunks] rows each. *)
Fixpoint split_rows (rs : list (list F)) (chunks : list nat) :
    list (list (list F)) :=
  match chunks with
  | [] => []
  | c :: chunks' => take c rs :: split_rows (drop c rs) chunks'
  end.

(** [da.from_array(data, chunks=(chunks, data.shape[1]))]: the blocks
    along the leading axis; the second axis stays whole. *)
Definition from_array (data : ndarray2) (chunks : list nat) : list ndarray2 :=
  (λ rs, {| shape1 := shape1 data; rows := rs |}) <$> split_rows (rows data) chunks.

Fixpoint map_result {A B} (f : A → result B) (l : list A) : result (list B) :=
  match l with
  | [] => Ok []
  | a :: l' =>
      match f a with
      | Ok b =>
          match map_result f l' with
          | Ok bs => Ok (b :: bs)
          | Err e => Err e
          end
      | Err e => Err e
      end
  end.

(** [xr.apply_ufunc(f, blocks, ..., output_sizes={'out_grid': out_grid},
    dask='parallelized')] followed by the evaluation of the result: [f]
    on every block, the outputs concatenated along the leading axis in
    the order of the blocks. *)
Definition apply_ufunc (f : ndarray2 → result ndarray2) (out_grid : nat)
    (blocks : list ndarray2) : result ndarray2 :=
  match map_result f blocks with
  | Ok outs => Ok {| shape1 := out_grid; rows := concat (rows <$> outs) |}
  | Err e => Err e
  end.

(** [dr_out_pa] for a batch held in blocks of [chunks] rows. *)
Definition dr_out_pa (op : SparseOperator) (data : ndarray2)
    (chunks : list nat) : result ndarray2 :=
  apply_ufunc (apply_A op) (output_width op) (from_array data chunks).

(** ** Linear combinations of arrays *)

(** [a*x + b*y], cell by cell. *)
Definition lin_array (a : F) (x : ndarray2) (b : F) (y : ndarray2) : ndarray2 :=
  {| shape1 := shape1 x;
     rows := zip_with (zip_with (λ u v, add (mul a u) (mul b v))) (rows x) (rows y) |}.

(** ** What a cell is expected to hold *)

(** The contributions to output cell [r] of one batch row [drow], added
    onto [init] one after the other in ascending order of the nonzero
    index [i], over the indices [i] of [idx] with [row[i] = r]:
    [init + drow[col[i1]]*S[i1] + drow[col[i2]]*S[i2] + ...]. *)
Definition cell_sum (col row : list Z) (S : list F) (drow : list F)
    (idx : list nat) (r : nat) (init : F) : F :=
  foldl (λ acc i, add acc (mul (drow !!! Z.to_nat (col !!! i)) (S !!! i)))
    init (filter (λ i, row !!! i = Z.of_nat r) idx).

(** ** The generalised ufunc *)

(** The call [sparse_dot_guvec(data, col, row, S, shape_arr)] of a
    function compiled with the layout [(n),(k),(k),(k),(m)->(m)]: the
    body runs once for every row of [data], each time with the whole
    of [col], [row], [S], [shape_arr] and with its own row of the
    output, which has [len(shape_arr)] cells.  The body never stores
    into a cell before reading it, so what the output holds when it is
    handed to the body matters; [alloc] is that content.  The three
    operator arrays are taken to have one length [k] (the call is
    refused otherwise). *)
Definition sparse_dot_guvec_call (alloc data : ndarray2) (col row : list Z)
    (S : list F) (shape_arr : list Z) : result ndarray2 :=
  match map_result (λ p, returned (sparse_dot_guvec p.1 col row S shape_arr p.2))
          (zip (rows data) (rows alloc)) with
  | Ok rs => Ok {| shape1 := length shape_arr; rows := rs |}
  | Err e => Err e
  end.

(** [np.arange(n)], the dummy array that carries the output extent. *)
Definition arange (n : nat) : list Z := Z.of_nat <$> range n.

(** ** Blocks of one size *)

(** The block lengths [da.from_array] derives from one block length
    [c] for an axis of [n] entries: as many blocks of [c] as fit, then
    one shorter block with what is left, if anything is; an axis of no
    entry is one block of none. *)
Definition uniform_chunks (n c : nat) : list nat :=
  if decide (n = 0) then [0]
  else replicate (n / c) c ++ (if decide (n `mod` c = 0) then [] else [n `mod` c]).

(** ** The serial order as a run *)

(** The order in which the nested loops of [sparse_dot] reach their
    statements. *)
Definition serial_schedule (n nnz : nat) : list (nat * nat) :=
  j ← range n; (λ i, (j, i)) <$> range nnz.

End Kernel.

Arguments mk_ndarray2 {F} _ _.
Arguments shape1 {F} _.
Arguments rows {F} _.
Arguments shape0 {F} _.
Arguments wf {F} _.
Arguments getitem2 {F} _ _ _.
Arguments set_row {F} _ _ _.
Arguments setitem2 {F} _ _ _ _.
Arguments mk_operator {F} _ _ _ _ _.
Arguments op_col {F} _.
Arguments op_row {F} _.
Arguments op_S {F} _.
Arguments input_width {F} _.
Arguments output_width {F} _.
Arguments valid_operator {F} _.
Arguments mk_dataset {F} _ _ _.
Arguments ds_col {F} _.
Arguments ds_row {F} _.
Arguments ds_S {F} _.
Arguments load {F} _ _ _.
Arguments from_array {F} _ _.
Arguments apply_ufunc {F} _ _ _.
Arguments is_schedule _ _ _ : clear implicits.
Arguments serial_schedule _ _ : clear implicits.
Arguments uniform_chunks _ _ : clear implicits.
Arguments arange _ : clear implicits.

(** ** The kernels at binary64 *)

Module Float64.

Definition apply_A := apply_A float 0%float PrimFloat.add PrimFloat.mul.
Definition apply_A_pa := apply_A_pa float 0%float PrimFloat.add PrimFloat.mul.
Definition dr_out_pa := dr_out_pa float 0%float PrimFloat.add PrimFloat.mul.
Definition sparse_dot := sparse_dot float PrimFloat.add PrimFloat.mul.

(** The operator of the concrete scenario of the testable
    properties. *)
Definition op3 : SparseOperator float :=
  {| op_col := [0; 1; 1]%Z; op_row := [0; 0; 1]%Z;
     op_S := [1; 2; 3]%float; input_width := 2; output_width := 2 |}.

Definition batch11 : ndarray2 float :=
  {| shape1 := 2; rows := [[1; 1]%float] |}.

(** A batch of three rows, and one with a column more than [op3]
    expects. *)
Definition batch3 : ndarray2 float :=
  {| shape1 := 2; rows := [[1; 1]; [2; 0.5]; [-4; 8]]%float |}.

Definition batch_wide : ndarray2 float :=
  {| shape1 := 3; rows := [[1; 1; 7]%float] |}.

(** A run of [prange] over three rows that moves between the rows. *)
Definition sched3 : list (nat * nat) :=
  [(1, 0); (0, 0); (1, 1); (2, 0); (2, 1); (0, 1); (0, 2); (2, 2); (1, 2)].

(** A buffer that holds something already. *)
Definition buffer11 : ndarray2 float :=
  {| shape1 := 2; rows := [[10; 20]%float] |}.

(** The identity on one column, the identity on two columns with its
    nonzeros listed in reverse order, and batches for them. *)
Definition op_id1 : SparseOperator float :=
  {| op_col := [0]%Z; op_row := [0]%Z; op_S := [1]%float;
     input_width := 1; output_width := 1 |}.

Definition op_id2 : SparseOperator float :=
  {| op_col := [1; 0]%Z; op_row := [1; 0]%Z; op_S := [1; 1]%float;
     input_width := 2; output_width := 2 |}.

Definition batch_negzero : ndarray2 float :=
  {| shape1 := 1; rows := [[neg_zero]] |}.

Definition batch_id2 : ndarray2 float :=
  {| shape1 := 2; rows := [[1.5; -2]; [0; 0.25]]%float |}.

(** An operator that reads column 0 only, and two batches that differ
    in column 1. *)
Definition op_first : SparseOperator float :=
  {| op_col := [0]%Z; op_row := [0]%Z; op_S := [2]%float;
     input_width := 2; output_width := 1 |}.

Definition batch_a : ndarray2 float := {| shape1 := 2; rows := [[1; 7]%float] |}.
Definition batch_b : ndarray2 float := {| shape1 := 2; rows := [[1; 9]%float] |}.

(** External data, one-based: in range for widths 2 and 2, and with a
    column index past the input width. *)
Definition ds_good : dataset float :=
  {| ds_col := [1; 2; 2]%Z; ds_row := [1; 1; 2]%Z; ds_S := [1; 2; 3]%float |}.

Definition ds_bad : dataset float :=
  {| ds_col := [5]%Z; ds_row := [1]%Z; ds_S := [1]%float |}.

(** An operator with no nonzero whose index arrays hold anything. *)
Definition op_empty : SparseOperator float :=
  {| op_col := [7; -9]%Z; op_row := [42]%Z; op_S := [];
     input_width := 2; output_width := 2 |}.

(** One nonzero of weight one half, a batch whose entry doubles past
    the largest binary64 value, and the zero batch. *)
Definition op_half : SparseOperator float :=
  {| op_col := [0]%Z; op_row := [0]%Z; op_S := [0.5]%float;
     input_width := 1; output_width := 1 |}.

Definition batch_big : ndarray2 float :=
  {| shape1 := 1; rows := [[0x1p1023]%float] |}.

Definition batch_zero : ndarray2 float :=
  {| shape1 := 1; rows := [[0]%float] |}.

(** An operator on two columns that names output cell 0 only. *)
Definition op_id1' : SparseOperator float :=
  {| op_col := [1]%Z; op_row := [0]%Z; op_S := [1]%float;
     input_width := 2; output_width := 2 |}.

(** A buffer with a row more than [batch11] has. *)
Definition buffer21 : ndarray2 float :=
  {| shape1 := 2; rows := [[10; 20]; [30; 40]]%float |}.

(** A buffer of three rows that holds something already. *)
Definition buffer3 : ndarray2 float :=
  {| shape1 := 2; rows := [[1; 2]; [3; 4]; [5; 6]]%float |}.

End Float64.

(** ** The kernels over the integers *)

(** The kernels with the integers as scalars: an arithmetic without
    rounding, which is not the one the notebook computes in. *)
Module ExactZ.

Definition apply_A := apply_A Z 0%Z Z.add Z.mul.

Definition op3 : SparseOperator Z :=
  {| op_col := [0; 1; 1]%Z; op_row := [0; 0; 1]%Z;
     op_S := [1; 2; 3]%Z; input_width := 2; output_width := 2 |}.

Definition batch1 : ndarray2 Z := {| shape1 := 2; rows := [[1; 1]%Z] |}.
Definition batch2 : ndarray2 Z := {| shape1 := 2; rows := [[2; 5]%Z] |}.

End ExactZ.

(** * Properties *)

(** ** Indexing *)

Lemma norm_index_nat (n i : nat) : i < n → norm_index n (Z.of_nat i) = Some i.
Proof.
  intros Hi. unfold norm_index.
  rewrite bool_decide_eq_true_2 by lia. by rewrite Nat2Z.id.
Qed.

Lemma norm_index_in (n : nat) (i : Z) :
  (0 ≤ i < Z.of_nat n)%Z → norm_index n i = Some (Z.to_nat i).
Proof. intros Hi. unfold norm_index. by rewrite bool_decide_eq_true_2. Qed.

Lemma norm_index_lt (n : nat) (i : Z) (k : nat) :
  norm_index n i = Some k → k < n.
Proof.
  unfold norm_index. repeat case_bool_decide; intros; simplify_eq; lia.
Qed.

Lemma getitem1_nat {A} (a : list A) (i : nat) :
  getitem1 a (Z.of_nat i) = a !! i.
Proof.
  unfold getitem1. destruct (decide (i < length a)) as [Hi|Hi].
  - by rewrite norm_index_nat.
  - rewrite (lookup_ge_None_2 a i) by lia.
    destruct (norm_index _ _) as [k|] eqn:Hk; [|done]. simpl.
    unfold norm_index in Hk. repeat case_bool_decide; simplify_eq; lia.
Qed.

Lemma getitem1_in `{Inhabited A} (a : list A) (i : Z) :
  (0 ≤ i < Z.of_nat (length a))%Z → getitem1 a i = Some (a !!! Z.to_nat i).
Proof.
  intros Hi. unfold getitem1. rewrite norm_index_in by done. simpl.
  apply list_lookup_lookup_total_lt. lia.
Qed.

Lemma setitem1_in {A} (a : list A) (i : Z) (v : A) :
  (0 ≤ i < Z.of_nat (length a))%Z → setitem1 a i v = Some (<[Z.to_nat i := v]> a).
Proof. intros Hi. unfold setitem1. by rewrite norm_index_in. Qed.

Lemma setitem1_length {A} (a a' : list A) (i : Z) (v : A) :
  setitem1 a i v = Some a' → length a' = length a.
Proof.
  unfold setitem1. intros Hs.
  destruct (norm_index _ _); simplify_eq/=. by rewrite length_insert.
Qed.

(** ** Loops *)

Lemma for_each_app {X St} (xs ys : list X) (body : X → St → outcome St) buf :
  for_each (xs ++ ys) body buf =
  match for_each xs body buf with
  | Done buf' => for_each ys body buf'
  | Raised e buf' => Raised e buf'
  end.
Proof.
  revert buf. induction xs as [|x xs IH]; intros buf; simpl; [done|].
  destruct (body x buf); [apply IH | done].
Qed.

Lemma for_each_ext {X St} (xs : list X) (f g : X → St → outcome St) buf :
  (∀ x b, x ∈ xs → f x b = g x b) → for_each xs f buf = for_each xs g buf.
Proof.
  revert buf. induction xs as [|x xs IH]; intros buf Hfg; simpl; [done|].
  rewrite Hfg by left. destruct (g x buf); [|done].
  apply IH. intros y b Hy. apply Hfg. by right.
Qed.

(** An exception that leaves a loop was raised by its body. *)
Lemma for_each_raises {X St} (P : exn → Prop) (xs : list X)
    (body : X → St → outcome St) buf e buf' :
  (∀ x b e' b', body x b = Raised e' b' → P e') →
  for_each xs body buf = Raised e buf' → P e.
Proof.
  intros Hbody. revert buf. induction xs as [|x xs IH]; intros buf; simpl; [done|].
  destruct (body x buf) as [b|e' b] eqn:Hx; [apply IH|].
  intros [= <- <-]. by eapply Hbody.
Qed.

Lemma stmt_raises {St} (s : St → option St) buf e buf' :
  stmt s buf = Raised e buf' → e = IndexError.
Proof. unfold stmt. destruct (s buf); congruence. Qed.

Section Kernel_facts.

Context {F : Type}.
Variables zero one : F.
Variables add mul : F → F → F.

Local Hint Extern 0 (Inhabited F) =>
  exact (F_inhabited F zero) : typeclass_instances.

Local Abbreviation accumulate := (accumulate F add mul).
Local Abbreviation accumulate1 := (accumulate1 F add mul).
Local Abbreviation sparse_dot := (sparse_dot F add mul).
Local Abbreviation sparse_dot_pa := (sparse_dot_pa F add mul).
Local Abbreviation sparse_dot_guvec := (sparse_dot_guvec F add mul).
Local Abbreviation apply_A := (apply_A F zero add mul).
Local Abbreviation apply_A_pa := (apply_A_pa F zero add mul).
Local Abbreviation dr_out_pa := (dr_out_pa F zero add mul).
Local Abbreviation cell_sum := (cell_sum F zero add mul).
Local Abbreviation zeros := (zeros F zero).
Local Abbreviation lin_array := (lin_array F add mul).
Local Abbreviation row_step := (row_step F zero add mul).
Local Abbreviation sparse_dot_guvec_call := (sparse_dot_guvec_call F add mul).

(** ** A two-dimensional access is an access to a row *)

Lemma set_row_id j r (buf : ndarray2 F) : rows buf !! j = Some r → set_row j r buf = buf.
Proof.
  intros Hj. destruct buf as [m rs]. unfold set_row; simpl in *.
  by rewrite list_insert_id.
Qed.

Lemma set_row_set_row j r r' (buf : ndarray2 F) :
  set_row j r' (set_row j r buf) = set_row j r' buf.
Proof. unfold set_row; simpl. by rewrite list_insert_insert_eq. Qed.

Lemma wf_lookup (a : ndarray2 F) j r :
  wf a → rows a !! j = Some r → length r = shape1 a.
Proof. intros Hwf Hj. by eapply (Forall_lookup_1 _ _ _ _ Hwf). Qed.

Lemma wf_set_row j r (buf : ndarray2 F) :
  wf buf → length r = shape1 buf → wf (set_row j r buf).
Proof. intros Hwf Hr. unfold wf, set_row; simpl. by apply Forall_insert. Qed.

Lemma getitem2_row (a : ndarray2 F) (j : nat) (k : Z) (r : list F) :
  wf a → rows a !! j = Some r → getitem2 a (Z.of_nat j) k = getitem1 r k.
Proof.
  intros Hwf Hj. unfold getitem2, getitem1.
  rewrite norm_index_nat by (by eapply lookup_lt_Some). simpl.
  rewrite (wf_lookup _ _ _ Hwf Hj).
  destruct (norm_index _ _); simpl; [|done]. by rewrite Hj.
Qed.

Lemma setitem2_row (a : ndarray2 F) (j : nat) (k : Z) (v : F) (r : list F) :
  wf a → rows a !! j = Some r →
  setitem2 a (Z.of_nat j) k v = (λ r', set_row j r' a) <$> setitem1 r k v.
Proof.
  intros Hwf Hj. unfold setitem2, setitem1.
  rewrite norm_index_nat by (by eapply lookup_lt_Some). simpl.
  rewrite (wf_lookup _ _ _ Hwf Hj).
  destruct (norm_index _ _) as [k'|] eqn:Hk; simpl; [|done]. rewrite Hj. simpl.
  apply norm_index_lt in Hk. rewrite <- (wf_lookup _ _ _ Hwf Hj) in Hk.
  destruct (lookup_lt_is_Some_2 r k' Hk) as [x ->]. done.
Qed.

(** The two-dimensional statement on row [j] is the one-dimensional
    statement on that row. *)
Lemma accumulate_row data col row S j i buf drow orow :
  wf data → wf buf → rows data !! j = Some drow → rows buf !! j = Some orow →
  accumulate data col row S j i buf =
  (λ r', set_row j r' buf) <$> accumulate1 drow col row S i orow.
Proof.
  intros Hd Hb Hdj Hbj. unfold accumulate, accumulate1.
  destruct (getitem1 row _) as [r|]; simpl; [|done].
  rewrite (getitem2_row buf j r orow) by done.
  destruct (getitem1 orow r) as [old|]; simpl; [|done].
  destruct (getitem1 col _) as [c|]; simpl; [|done].
  rewrite (getitem2_row data j c drow) by done.
  destruct (getitem1 drow c) as [x|]; simpl; [|done].
  destruct (getitem1 S _) as [w|]; simpl; [|done].
  by apply setitem2_row.
Qed.

Lemma accumulate1_length drow col row S i orow orow' :
  accumulate1 drow col row S i orow = Some orow' → length orow' = length orow.
Proof.
  unfold accumulate1. intros Ha.
  repeat (match type of Ha with
          | context [getitem1 ?a ?k] => destruct (getitem1 a k); simpl in Ha; [|done]
          end).
  by eapply setitem1_length.
Qed.

Lemma row_loop_length drow col row S idx orow o :
  for_each idx (λ i, stmt (accumulate1 drow col row S i)) orow = o →
  length (match o with Done r | Raised _ r => r end) = length orow.
Proof.
  revert orow. induction idx as [|i idx IH]; intros orow; simpl.
  - by intros <-.
  - unfold stmt at 1.
    destruct (accumulate1 _ _ _ _ _ _) as [orow1|] eqn:Ha.
    + intros Ho. rewrite (IH _ Ho). by eapply accumulate1_length.
    + by intros <-.
Qed.

(** The inner loop on row [j] is the one-dimensional kernel on that
    row, exceptions and partial writes included. *)
Lemma inner_loop_row data col row S j idx buf drow orow :
  wf data → wf buf → rows data !! j = Some drow → rows buf !! j = Some orow →
  for_each idx (λ i, stmt (accumulate data col row S j i)) buf =
  outcome_map (λ r', set_row j r' buf)
    (for_each idx (λ i, stmt (accumulate1 drow col row S i)) orow).
Proof.
  intros Hd. revert buf orow.
  induction idx as [|i idx IH]; intros buf orow Hb Hdj Hbj; simpl.
  - by rewrite set_row_id.
  - unfold stmt at 1 3. rewrite (accumulate_row _ _ _ _ _ _ _ drow orow) by done.
    destruct (accumulate1 _ _ _ _ _ _) as [orow1|] eqn:Ha; simpl.
    + rewrite (IH (set_row j orow1 buf) orow1); [| |done|].
      * destruct (for_each _ _ orow1); simpl; by rewrite set_row_set_row.
      * apply wf_set_row; [done|].
        rewrite (accumulate1_length _ _ _ _ _ _ _ Ha). by eapply wf_lookup.
      * simpl. apply list_lookup_insert_eq. by eapply lookup_lt_Some.
    + by rewrite set_row_id.
Qed.

(** ** The one-dimensional kernel under the operator's invariant *)

Section Row.

Variable op : SparseOperator F.
Hypothesis Hop : valid_operator op.

Local Abbreviation col := (op_col op).
Local Abbreviation row := (op_row op).
Local Abbreviation S := (op_S op).

Lemma valid_col_lookup i :
  i < length S → (0 ≤ col !!! i < Z.of_nat (input_width op))%Z.
Proof.
  destruct Hop as (Hc & _ & Hcol & _). intros Hi.
  apply (Forall_lookup_1 _ _ i _ Hcol).
  apply list_lookup_lookup_total_lt. lia.
Qed.

Lemma valid_row_lookup i :
  i < length S → (0 ≤ row !!! i < Z.of_nat (output_width op))%Z.
Proof.
  destruct Hop as (_ & Hr & _ & Hrow). intros Hi.
  apply (Forall_lookup_1 _ _ i _ Hrow).
  apply list_lookup_lookup_total_lt. lia.
Qed.

Lemma accumulate1_valid drow orow i :
  input_width op ≤ length drow → length orow = output_width op →
  i < length S →
  accumulate1 drow col row S i orow = Some (row_step drow col row S i orow).
Proof.
  intros Hd Ho Hi. pose proof (valid_col_lookup i Hi) as Hc.
  pose proof (valid_row_lookup i Hi) as Hr.
  destruct Hop as (Hlc & Hlr & _ & _).
  unfold accumulate1, row_step. rewrite !getitem1_nat.
  rewrite (list_lookup_lookup_total_lt row i) by lia. simpl.
  rewrite (getitem1_in orow) by lia. simpl.
  rewrite (list_lookup_lookup_total_lt col i) by lia. simpl.
  rewrite (getitem1_in drow) by lia. simpl.
  rewrite (list_lookup_lookup_total_lt S i) by lia. simpl.
  apply setitem1_in. lia.
Qed.

Lemma row_step_length drow orow i :
  length (row_step drow col row S i orow) = length orow.
Proof. unfold row_step. apply length_insert. Qed.

Lemma row_fold_length drow idx orow :
  length (foldl (λ o i, row_step drow col row S i o) orow idx) = length orow.
Proof.
  revert orow. induction idx as [|i idx IH]; intros orow; simpl; [done|].
  by rewrite IH, row_step_length.
Qed.

(** Under the invariant no statement of the row kernel raises, and the
    kernel is the fold of [row_step]. *)
Lemma row_loop_valid drow idx orow :
  input_width op ≤ length drow → length orow = output_width op →
  Forall (λ i, i < length S) idx →
  for_each idx (λ i, stmt (accumulate1 drow col row S i)) orow =
  Done (foldl (λ o i, row_step drow col row S i o) orow idx).
Proof.
  intros Hd. revert orow.
  induction idx as [|i idx IH]; intros orow Ho Hidx; simpl; [done|].
  inversion_clear Hidx as [|? ? Hi Hidx'].
  unfold stmt at 1. rewrite accumulate1_valid by done.
  apply IH; [|done]. by rewrite row_step_length.
Qed.

(** Cell [r] after the fold holds the contributions with [row[i] = r],
    added in the order of [idx] onto what the cell held before. *)
Lemma row_fold_cell drow idx orow r :
  length orow = output_width op → Forall (λ i, i < length S) idx →
  r < output_width op →
  foldl (λ o i, row_step drow col row S i o) orow idx !!! r =
  cell_sum col row S drow idx r (orow !!! r).
Proof.
  intros Ho Hidx Hr. revert orow Ho.
  induction Hidx as [|i idx Hi Hidx IH]; intros orow Ho; simpl; [done|].
  rewrite IH by (by rewrite row_step_length).
  pose proof (valid_row_lookup i Hi) as Hri.
  unfold cell_sum. rewrite filter_cons. unfold row_step at 1.
  destruct (decide (row !!! i = Z.of_nat r)) as [Heq|Hne].
  - rewrite Heq, Nat2Z.id. rewrite list_lookup_total_insert_eq by lia. done.
  - rewrite list_lookup_total_insert_ne by lia. done.
Qed.

End Row.

(** ** Results of a list of calls *)

Lemma map_result_app {A B} (f : A → result B) (l1 l2 : list A) :
  map_result f (l1 ++ l2) =
  match map_result f l1 with
  | Ok bs1 =>
      match map_result f l2 with
      | Ok bs2 => Ok (bs1 ++ bs2)
      | Err e => Err e
      end
  | Err e => Err e
  end.
Proof.
  induction l1 as [|a l1 IH]; simpl.
  - by destruct (map_result f l2).
  - destruct (f a); [|done]. rewrite IH.
    destruct (map_result f l1); [|done]. by destruct (map_result f l2).
Qed.

Lemma map_result_ok {A B} (f : A → result B) (g : A → B) (l : list A) :
  Forall (λ a, f a = Ok (g a)) l → map_result f l = Ok (g <$> l).
Proof.
  induction 1 as [|a l Ha _ IH]; simpl; [done|]. by rewrite Ha, IH.
Qed.

(** ** The serial kernel, row by row *)

(** The outer loop from row [length opre] on: every row still to do
    goes through the one-dimensional kernel. *)
Lemma outer_loop_rows (data buf : ndarray2 F) col row S dpre dtodo opre otodo :
  wf data → wf buf →
  rows data = dpre ++ dtodo → rows buf = opre ++ otodo →
  length dpre = length opre → length dtodo = length otodo →
  returned (for_each (seq (length opre) (length otodo)) (λ j,
    for_each (range (length S)) (λ i, stmt (accumulate data col row S j i)))
    buf) =
  match map_result
          (λ p, returned (sparse_dot_guvec p.1 col row S [] p.2))
          (zip dtodo otodo) with
  | Ok rs => Ok {| shape1 := shape1 buf; rows := opre ++ rs |}
  | Err e => Err e
  end.
Proof.
  intros Hd. revert buf dpre opre otodo.
  induction dtodo as [|d dt IH]; intros buf dpre opre otodo Hb Hrd Hrb Hpre Hl.
  - destruct otodo; [|done]. simpl. destruct buf as [m rs]; simpl in *.
    by rewrite Hrb.
  - destruct otodo as [|o ot]; [done|]. simpl in Hl.
    cbn [length seq for_each zip zip_with map_result fst snd].
    assert (rows data !! length opre = Some d) as Hdj.
    { rewrite Hrd, <- Hpre. by rewrite list_lookup_middle. }
    assert (rows buf !! length opre = Some o) as Hbj.
    { rewrite Hrb. by rewrite list_lookup_middle. }
    rewrite (inner_loop_row _ _ _ _ _ _ _ d o) by done.
    unfold sparse_dot_guvec at 1.
    destruct (for_each _ _ o) as [o'|e o'] eqn:Hrun; simpl; [|done].
    pose proof (row_loop_length _ _ _ _ _ _ _ Hrun) as Hlen. simpl in Hlen.
    specialize (IH (set_row (length opre) o' buf) (dpre ++ [d]) (opre ++ [o']) ot).
    replace (Datatypes.S (length opre)) with (length (opre ++ [o']))
      by (rewrite length_app; simpl; lia).
    rewrite IH; clear IH.
    + destruct (map_result _ _); [|done]. simpl. by rewrite <- app_assoc.
    + apply wf_set_row; [done|]. rewrite Hlen. by eapply wf_lookup.
    + by rewrite Hrd, <- app_assoc.
    + simpl. rewrite Hrb, <- app_assoc. simpl.
      by rewrite insert_app_r_alt, Nat.sub_diag by lia.
    + rewrite !length_app. simpl. lia.
    + lia.
Qed.

(** [sparse_dot] runs the one-dimensional kernel on every pair of a
    batch row and an output row, and raises what the first failing row
    raises. *)
Lemma sparse_dot_rows (data_out data : ndarray2 F) col row S :
  wf data → wf data_out → shape0 data_out = shape0 data →
  returned (sparse_dot data_out data col row S) =
  match map_result
          (λ p, returned (sparse_dot_guvec p.1 col row S [] p.2))
          (zip (rows data) (rows data_out)) with
  | Ok rs => Ok {| shape1 := shape1 data_out; rows := rs |}
  | Err e => Err e
  end.
Proof.
  intros Hd Hb Hn. unfold sparse_dot, range, shape0 in *. rewrite <- Hn.
  by apply (outer_loop_rows data data_out col row S [] (rows data) [] (rows data_out)).
Qed.

Lemma returned_Ok {St} (o : outcome St) (buf : St) :
  returned o = Ok buf → o = Done buf.
Proof. destruct o; simpl; congruence. Qed.

Lemma map_result_zip_replicate {A B C} (f : A * B → result C) (l : list A) (z : B) :
  map_result f (zip l (replicate (length l) z)) = map_result (λ a, f (a, z)) l.
Proof.
  induction l as [|a l IH]; simpl; [done|]. by rewrite IH.
Qed.

Lemma wf_zeros n m : wf (zeros n m).
Proof.
  unfold wf, zeros; simpl. apply Forall_replicate. apply length_replicate.
Qed.

(** [apply_A] runs the one-dimensional kernel on every batch row with
    a fresh row of zeros. *)
Lemma apply_A_rows (op : SparseOperator F) (data : ndarray2 F) :
  wf data →
  apply_A op data =
  match map_result
          (λ d, returned (sparse_dot_guvec d (op_col op) (op_row op) (op_S op) []
                            (replicate (output_width op) zero)))
          (rows data) with
  | Ok rs => Ok {| shape1 := output_width op; rows := rs |}
  | Err e => Err e
  end.
Proof.
  intros Hd. unfold apply_A, apply_A_with.
  rewrite sparse_dot_rows; [|done|apply wf_zeros|apply length_replicate].
  unfold zeros at 1, shape0. cbn [rows].
  by rewrite map_result_zip_replicate.
Qed.

Lemma getitem2_cell (a : ndarray2 F) (j r : nat) (orow : list F) :
  wf a → rows a !! j = Some orow → r < shape1 a →
  getitem2 a (Z.of_nat j) (Z.of_nat r) = Some (orow !!! r).
Proof.
  intros Hwf Hj Hr. rewrite (getitem2_row a j _ orow) by done.
  rewrite getitem1_nat. apply list_lookup_lookup_total_lt.
  by rewrite (wf_lookup _ _ _ Hwf Hj).
Qed.

(** Under the invariant [sparse_dot] completes, and each output row is
    the fold of [row_step] over [range(nnz)] from what the row held. *)
Lemma sparse_dot_valid (op : SparseOperator F) (data_out data : ndarray2 F) :
  valid_operator op →
  wf data → input_width op ≤ shape1 data →
  wf data_out → shape1 data_out = output_width op →
  shape0 data_out = shape0 data →
  sparse_dot data_out data (op_col op) (op_row op) (op_S op) =
  Done {| shape1 := shape1 data_out;
          rows := zip_with
                    (λ d o, foldl (λ o i, row_step d (op_col op) (op_row op) (op_S op) i o)
                              o (range (length (op_S op))))
                    (rows data) (rows data_out) |}.
Proof.
  intros Hop Hd Hw Hb Hm Hn. apply returned_Ok.
  rewrite sparse_dot_rows by done.
  rewrite (map_result_ok _
    (uncurry (λ d o, foldl (λ o i, row_step d (op_col op) (op_row op) (op_S op) i o)
                       o (range (length (op_S op))))));
    [do 2 f_equal; symmetry; apply zip_with_zip|].
  apply Forall_forall. intros [d o] Hin.
  apply elem_of_zip_l in Hin as Hind. apply elem_of_zip_r in Hin as Hino.
  simpl in *. unfold sparse_dot_guvec.
  rewrite (row_loop_valid op Hop).
  - done.
  - apply list_elem_of_lookup in Hind as [j Hj].
    by rewrite (wf_lookup _ _ _ Hd Hj).
  - apply list_elem_of_lookup in Hino as [j Hj].
    by rewrite (wf_lookup _ _ _ Hb Hj).
  - apply Forall_forall. intros i Hi. apply elem_of_seq in Hi. lia.
Qed.

(** The cells after [sparse_dot] on a buffer of any contents. *)
Lemma sparse_dot_cells (op : SparseOperator F) (data_out data : ndarray2 F) :
  valid_operator op →
  wf data → input_width op ≤ shape1 data →
  wf data_out → shape1 data_out = output_width op →
  shape0 data_out = shape0 data →
  ∃ out,
    sparse_dot data_out data (op_col op) (op_row op) (op_S op) = Done out ∧
    shape0 out = shape0 data ∧ shape1 out = output_width op ∧ wf out ∧
    ∀ (j r : nat) drow init,
      rows data !! j = Some drow →
      getitem2 data_out (Z.of_nat j) (Z.of_nat r) = Some init →
      r < output_width op →
      getitem2 out (Z.of_nat j) (Z.of_nat r) =
      Some (cell_sum (op_col op) (op_row op) (op_S op) drow
              (range (length (op_S op))) r init).
Proof.
  intros Hop Hd Hw Hb Hm Hn. eexists. split; [by apply sparse_dot_valid|].
  assert (Hidx : Forall (λ i, i < length (op_S op)) (range (length (op_S op)))).
  { apply Forall_forall. intros i Hi. apply elem_of_seq in Hi. lia. }
  split_and!.
  - unfold shape0 in *. simpl. rewrite length_zip_with. lia.
  - done.
  - unfold wf. simpl. apply Forall_lookup_2. intros j r Hj.
    apply lookup_zip_with_Some in Hj as (d & o & -> & _ & Ho).
    rewrite (row_fold_length op). by eapply wf_lookup.
  - intros j r drow init Hdj Hinit Hr.
    destruct (lookup_lt_is_Some_2 (rows data_out) j) as [orow Hoj].
    { apply lookup_lt_Some in Hdj. unfold shape0 in Hn. lia. }
    rewrite (getitem2_cell data_out j r orow) in Hinit by (done || lia).
    injection Hinit as <-.
    pose proof (wf_lookup _ _ _ Hb Hoj) as Hlen.
    erewrite getitem2_cell.
    + f_equal. apply (row_fold_cell op Hop); [lia|done|done].
    + unfold wf. simpl. apply Forall_lookup_2. intros j' r' Hj'.
      apply lookup_zip_with_Some in Hj' as (d & o & -> & _ & Ho).
      rewrite (row_fold_length op). by eapply wf_lookup.
    + simpl. rewrite lookup_zip_with, Hdj, Hoj. done.
    + simpl. lia.
Qed.

Lemma getitem2_zeros (n m j r : nat) :
  j < n → r < m → getitem2 (zeros n m) (Z.of_nat j) (Z.of_nat r) = Some zero.
Proof.
  intros Hj Hr.
  rewrite (getitem2_cell _ j r (replicate m zero)); [|apply wf_zeros| |done].
  - by rewrite lookup_total_replicate_2.
  - simpl. by apply lookup_replicate_2.
Qed.

(** ** The cells of [apply_A] and [sparse_dot] *)

(** The cells of what [apply_A] returns. *)
Lemma apply_A_cells (op : SparseOperator F) (batch : ndarray2 F) :
  valid_operator op → wf batch → shape1 batch = input_width op →
  ∃ out,
    apply_A op batch = Ok out ∧
    shape0 out = shape0 batch ∧ shape1 out = output_width op ∧ wf out ∧
    ∀ (j r : nat) drow,
      rows batch !! j = Some drow → r < output_width op →
      getitem2 out (Z.of_nat j) (Z.of_nat r) =
      Some (cell_sum (op_col op) (op_row op) (op_S op) drow
              (range (length (op_S op))) r zero).
Proof.
  intros Hop Hb Hw.
  destruct (sparse_dot_cells op (zeros (shape0 batch) (output_width op)) batch)
    as (out & Hrun & Hn & Hm & Hwf & Hcell);
    [done|done|lia|apply wf_zeros|done|apply length_replicate|].
  exists out. unfold apply_A, apply_A_with. rewrite Hrun. simpl.
  split_and!; [done..|].
  intros j r drow Hj Hr. apply Hcell; [done| |done].
  apply getitem2_zeros; [|done]. by eapply lookup_lt_Some.
Qed.

(** Two rectangular arrays of one shape with the same cells are the
    same array. *)
Lemma ndarray2_ext (a b : ndarray2 F) :
  wf a → wf b → shape0 a = shape0 b → shape1 a = shape1 b →
  (∀ j r : nat, j < shape0 a → r < shape1 a →
     getitem2 a (Z.of_nat j) (Z.of_nat r) = getitem2 b (Z.of_nat j) (Z.of_nat r)) →
  a = b.
Proof.
  intros Ha Hb Hn Hm Hcell.
  assert (rows a = rows b) as Hrows.
  { apply (list_eq_same_length _ _ (shape0 a)); [by rewrite Hn|done|].
    intros j ra rb Hj Hra Hrb.
    pose proof (wf_lookup _ _ _ Ha Hra) as Hla.
    pose proof (wf_lookup _ _ _ Hb Hrb) as Hlb.
    apply (list_eq_same_length _ _ (shape1 a)); [by rewrite Hm|done|].
    intros r x y Hr Hx Hy. specialize (Hcell j r Hj Hr).
    rewrite (getitem2_row a j _ ra), (getitem2_row b j _ rb) in Hcell by done.
    rewrite !getitem1_nat in Hcell. congruence. }
  destruct a, b; simpl in *; congruence.
Qed.

(** C1: for an operator that meets its invariant and a batch of shape
    (batch_size, input_width), [apply_A] is [sparse_dot] (the loops over
    [j] and, in ascending order, [i], each performing [output[j,
    row[i]] += batch[j, col[i]] * weight[i]]) run on a zero-initialised
    output; it returns an output of shape (batch_size, output_width)
    in which every cell [output[j, r]] is the sum, taken from zero in
    ascending order of [i], of [batch[j, col[i]] * weight[i]] over the
    [i] with [row[i] = r]. *)
Theorem apply_A_spec (op : SparseOperator F) (batch : ndarray2 F) :
  valid_operator op → wf batch → shape1 batch = input_width op →
  apply_A op batch =
    returned (sparse_dot (zeros (shape0 batch) (output_width op)) batch
                (op_col op) (op_row op) (op_S op)) ∧
  ∃ out,
    apply_A op batch = Ok out ∧
    shape0 out = shape0 batch ∧ shape1 out = output_width op ∧ wf out ∧
    ∀ (j r : nat) drow,
      rows batch !! j = Some drow → r < output_width op →
      getitem2 out (Z.of_nat j) (Z.of_nat r) =
      Some (cell_sum (op_col op) (op_row op) (op_S op) drow
              (range (length (op_S op))) r zero).
Proof.
  intros Hop Hb Hw. split; [done|]. by apply apply_A_cells.
Qed.

(** Where addition is associative with [zero] neutral, accumulating
    onto [init] is adding to [init] what accumulates onto [zero]. *)
Lemma cell_sum_from_init col row S drow idx r init :
  (∀ x y z, add x (add y z) = add (add x y) z) →
  (∀ x, add zero x = x) → (∀ x, add x zero = x) →
  cell_sum col row S drow idx r init =
  add init (cell_sum col row S drow idx r zero).
Proof.
  intros Hassoc H0l H0r. unfold cell_sum.
  generalize (filter (λ i, row !!! i = Z.of_nat r) idx). intros l. revert init.
  induction l as [|i l IH]; intros init; simpl; [by rewrite H0r|].
  rewrite IH. rewrite (IH (add zero _)). by rewrite H0l, Hassoc.
Qed.

(** C9: [sparse_dot] adds into the buffer it is given.  Whatever the
    buffer holds, of shape (batch_size, output_width), the call
    completes and each cell [data_out[j, r]] ends as its initial value
    with the contributions [data[j, col[i]] * S[i]] of the [i] with
    [row[i] = r] added onto it in ascending order of [i]; with exact
    addition that is the initial value plus the cell [apply_A]
    returns.  [apply_A] is this call on a buffer of zeros. *)
Theorem sparse_dot_accumulates (op : SparseOperator F) (data_out data : ndarray2 F) :
  valid_operator op →
  wf data → shape1 data = input_width op →
  wf data_out → shape1 data_out = output_width op →
  shape0 data_out = shape0 data →
  (∃ out,
    sparse_dot data_out data (op_col op) (op_row op) (op_S op) = Done out ∧
    shape0 out = shape0 data_out ∧ shape1 out = shape1 data_out ∧
    ∀ (j r : nat) drow init,
      rows data !! j = Some drow →
      getitem2 data_out (Z.of_nat j) (Z.of_nat r) = Some init →
      r < output_width op →
      getitem2 out (Z.of_nat j) (Z.of_nat r) =
      Some (cell_sum (op_col op) (op_row op) (op_S op) drow
              (range (length (op_S op))) r init)) ∧
  ((∀ x y z, add x (add y z) = add (add x y) z) →
   (∀ x, add zero x = x) → (∀ x, add x zero = x) →
   ∀ drow (r : nat) init,
     cell_sum (op_col op) (op_row op) (op_S op) drow
       (range (length (op_S op))) r init =
     add init (cell_sum (op_col op) (op_row op) (op_S op) drow
                 (range (length (op_S op))) r zero)) ∧
  apply_A op data =
    returned (sparse_dot (zeros (shape0 data) (output_width op)) data
                (op_col op) (op_row op) (op_S op)).
Proof.
  intros Hop Hd Hw Hb Hm Hn. split_and!; [| |done].
  - destruct (sparse_dot_cells op data_out data)
      as (out & Hrun & Hn' & Hm' & Hwf & Hcell); [done|done|lia|done..|].
    exists out. split_and!; [done|congruence|congruence|done].
  - intros Hassoc H0l H0r drow r init. by apply cell_sum_from_init.
Qed.

(** ** Chunks *)

Lemma map_result_lookup {A B} (f : A → result B) (l : list A) (bs : list B)
    (j : nat) (a : A) :
  map_result f l = Ok bs → l !! j = Some a →
  ∃ b, bs !! j = Some b ∧ f a = Ok b.
Proof.
  revert bs j. induction l as [|a' l IH]; intros bs j Hm Hj; [done|].
  simpl in Hm. destruct (f a') as [b'|] eqn:Hf; [|done].
  destruct (map_result f l) as [bs'|]; [|done]. injection Hm as <-.
  destruct j as [|j]; simpl in *.
  - injection Hj as <-. by exists b'.
  - by apply IH.
Qed.

(** The blocks of a batch give, block after block, what the rows of
    the batch give. *)
Lemma blocks_rows (op : SparseOperator F) (w : nat) (chunks : list nat)
    (rs : list (list F)) :
  Forall (λ r, length r = w) rs → sum_list chunks = length rs →
  match map_result (apply_A op)
          ((λ rs', {| shape1 := w; rows := rs' |}) <$> split_rows F rs chunks) with
  | Ok outs => Ok (concat (rows <$> outs))
  | Err e => Err e
  end =
  map_result
    (λ d, returned (sparse_dot_guvec d (op_col op) (op_row op) (op_S op) []
                      (replicate (output_width op) zero))) rs.
Proof.
  revert rs. induction chunks as [|c chunks IH]; intros rs Hrs Hsum; simpl in *.
  - by destruct rs.
  - match goal with |- _ = map_result ?K rs =>
      pose proof (map_result_app K (take c rs) (drop c rs)) as Happ end.
    rewrite take_drop in Happ. rewrite Happ; clear Happ.
    rewrite <- (IH (drop c rs)); [|by apply Forall_drop|rewrite length_drop; lia].
    rewrite apply_A_rows by (by apply Forall_take). simpl.
    destruct (map_result _ (take c rs)); [|done].
    by destruct (map_result (apply_A op) _).
Qed.

Lemma dr_out_pa_apply_A (op : SparseOperator F) (data : ndarray2 F)
    (chunks : list nat) :
  wf data → sum_list chunks = shape0 data →
  dr_out_pa op data chunks = apply_A op data.
Proof.
  intros Hd Hsum. unfold dr_out_pa, apply_ufunc, from_array.
  rewrite apply_A_rows by done.
  rewrite <- (blocks_rows op (shape1 data) chunks (rows data)) by done.
  by destruct (map_result (apply_A op) _).
Qed.

(** Under the invariant, on a rectangular batch with at least
    [input_width] columns, [apply_A] returns. *)
Lemma apply_A_valid_Ok (op : SparseOperator F) (batch : ndarray2 F) :
  valid_operator op → wf batch → input_width op ≤ shape1 batch →
  ∃ out, apply_A op batch = Ok out ∧
    shape0 out = shape0 batch ∧ shape1 out = output_width op.
Proof.
  intros Hop Hb Hw.
  destruct (sparse_dot_cells op (zeros (shape0 batch) (output_width op)) batch)
    as (out & Hrun & Hn & Hm & _);
    [done|done|done|apply wf_zeros|done|apply length_replicate|].
  exists out. unfold apply_A, apply_A_with. by rewrite Hrun.
Qed.

(** C3: for an operator that meets its invariant, every batch with
    the operator's columns and every way of cutting its rows into
    consecutive chunks, applying the operator to each chunk and
    concatenating the outputs in the order of the chunks returns the
    output that applying the operator to the whole batch returns; and
    in that output, row [j] is the one-dimensional kernel's result on
    row [j] of the batch. *)
Theorem chunk_invariance (op : SparseOperator F) (data : ndarray2 F)
    (chunks : list nat) :
  valid_operator op → wf data → input_width op ≤ shape1 data →
  sum_list chunks = shape0 data →
  ∃ out,
    apply_A op data = Ok out ∧
    dr_out_pa op data chunks = Ok out ∧
    shape0 out = shape0 data ∧
    ∀ (j : nat) drow,
      rows data !! j = Some drow →
      ∃ orow, rows out !! j = Some orow ∧
        sparse_dot_guvec drow (op_col op) (op_row op) (op_S op) []
          (replicate (output_width op) zero) = Done orow.
Proof.
  intros Hop Hd Hw Hsum.
  destruct (apply_A_valid_Ok op data Hop Hd Hw) as (out & Hout & Hn & _).
  exists out. split_and!; [done| |done|].
  - by rewrite dr_out_pa_apply_A.
  - intros j drow Hj. rewrite apply_A_rows in Hout by done.
    destruct (map_result _ (rows data)) as [rs|] eqn:Hrs; [|done].
    injection Hout as <-. simpl.
    destruct (map_result_lookup _ _ _ _ _ Hrs Hj) as (orow & Ho & Hk).
    exists orow. split; [done|]. by apply returned_Ok.
Qed.

(** ** Columns the operator does not name *)

(** C10: for an operator that meets its invariant, two batches with
    the operator's columns and the same number of rows that agree, in
    every row, at every column index listed in [col] get the same
    output: no other batch entry is read. *)
Theorem apply_A_reads_only_col (op : SparseOperator F) (batch1 batch2 : ndarray2 F) :
  valid_operator op →
  wf batch1 → wf batch2 →
  input_width op ≤ shape1 batch1 → input_width op ≤ shape1 batch2 →
  shape0 batch1 = shape0 batch2 →
  (∀ (j : nat) (c : Z), j < shape0 batch1 → c ∈ op_col op →
     getitem2 batch1 (Z.of_nat j) c = getitem2 batch2 (Z.of_nat j) c) →
  ∃ out, apply_A op batch1 = Ok out ∧ apply_A op batch2 = Ok out.
Proof.
  intros Hop Hb1 Hb2 Hw1 Hw2 Hn Hagree.
  destruct (apply_A_valid_Ok op batch1 Hop Hb1 Hw1) as (out & Hout & _).
  exists out. split; [done|]. rewrite <- Hout.
  unfold apply_A, apply_A_with, sparse_dot.
  rewrite <- Hn. f_equal.
  apply for_each_ext. intros j buf Hj. apply elem_of_seq in Hj.
  apply for_each_ext. intros i b _. unfold stmt, accumulate.
  destruct (getitem1 (op_row op) _) as [r|]; simpl; [|done].
  destruct (getitem2 b _ r) as [old|]; simpl; [|done].
  destruct (getitem1 (op_col op) _) as [c|] eqn:Hc; simpl; [|done].
  rewrite (Hagree j c); [done|lia|].
  rewrite getitem1_nat in Hc. by eapply list_elem_of_lookup_2.
Qed.

(** ** Runs under [prange] *)

Lemma is_schedule_bounds (n nnz : nat) (sched : list (nat * nat)) :
  is_schedule n nnz sched → Forall (λ p, p.1 < n ∧ p.2 < nnz) sched.
Proof.
  intros [Hj Hi]. apply Forall_forall. intros p Hp.
  pose proof (proj1 (Forall_forall _ _) Hj p Hp) as Hpn. simpl in Hpn.
  split; [done|].
  assert (p.1 ∈ range n) as Hin by (apply elem_of_seq; lia).
  pose proof (proj1 (Forall_forall _ _) Hi _ Hin) as Hproj. simpl in Hproj.
  assert (p.2 ∈ (filter (λ q, q.1 = p.1) sched).*2) as Hp2.
  { apply list_elem_of_fmap_2. by apply list_elem_of_filter. }
  rewrite Hproj in Hp2. apply elem_of_seq in Hp2. lia.
Qed.

(** Under the invariant a run completes, and it leaves in row [j] the
    fold of [row_step] over the statements of row [j], in the order
    the run gave them. *)
Lemma sparse_dot_pa_valid (op : SparseOperator F) (sched : list (nat * nat))
    (data_out data : ndarray2 F) :
  valid_operator op →
  wf data → input_width op ≤ shape1 data →
  wf data_out → shape1 data_out = output_width op →
  shape0 data_out = shape0 data →
  Forall (λ p, p.1 < shape0 data ∧ p.2 < length (op_S op)) sched →
  sparse_dot_pa sched data_out data (op_col op) (op_row op) (op_S op) =
  Done {| shape1 := shape1 data_out;
          rows := imap (λ j o,
                    foldl (λ o i, row_step (rows data !!! j) (op_col op) (op_row op)
                                    (op_S op) i o)
                      o (filter (λ p, p.1 = j) sched).*2)
                    (rows data_out) |}.
Proof.
  intros Hop Hd Hw. revert data_out.
  induction sched as [|[j i] sched IH]; intros buf Hb Hm Hn Hs.
  - unfold sparse_dot_pa. simpl. f_equal. destruct buf as [m rs]. simpl. f_equal.
    apply list_eq. intros k. rewrite list_lookup_imap. by destruct (rs !! k).
  - inversion_clear Hs as [|? ? [Hj Hi] Hs']. simpl in Hj, Hi.
    unfold shape0 in *.
    assert (rows data !! j = Some (rows data !!! j)) as Hdj
      by (apply list_lookup_lookup_total_lt; lia).
    assert (rows buf !! j = Some (rows buf !!! j)) as Hbj
      by (apply list_lookup_lookup_total_lt; lia).
    pose proof (wf_lookup _ _ _ Hd Hdj) as Hld.
    pose proof (wf_lookup _ _ _ Hb Hbj) as Hlb.
    unfold sparse_dot_pa. cbn [for_each fst snd]. unfold stmt at 1.
    rewrite (accumulate_row _ _ _ _ _ _ _ _ _ Hd Hb Hdj Hbj).
    rewrite (accumulate1_valid op Hop) by lia. simpl.
    specialize (IH (set_row j (row_step (rows data !!! j) (op_col op) (op_row op)
                                 (op_S op) i (rows buf !!! j)) buf)).
    unfold sparse_dot_pa in IH. rewrite IH; clear IH; [| |done| |done].
    + f_equal. simpl. f_equal. apply list_eq. intros k.
      rewrite !list_lookup_imap. destruct (decide (k = j)) as [->|Hne].
      * rewrite list_lookup_insert_eq by lia. rewrite Hbj. simpl.
        by rewrite filter_cons_True.
      * rewrite list_lookup_insert_ne by done.
        rewrite filter_cons_False by (simpl; congruence). done.
    + apply wf_set_row; [done|]. rewrite (row_step_length op). done.
    + simpl. rewrite length_insert. done.
Qed.

(** C4: for an operator that meets its invariant and a batch of its
    width, the serial [apply_A], the [prange] variant in any run that
    keeps each row's statements in ascending order of [i], and the
    chunked evaluation over any cut of the rows all return the same
    output; it has the rows of the batch in the batch's order: row [j]
    is the one-dimensional kernel's result on batch row [j]. *)
Theorem implementations_agree (op : SparseOperator F) (data : ndarray2 F)
    (sched : list (nat * nat)) (chunks : list nat) :
  valid_operator op → wf data → shape1 data = input_width op →
  is_schedule (shape0 data) (length (op_S op)) sched →
  sum_list chunks = shape0 data →
  ∃ out,
    apply_A op data = Ok out ∧
    apply_A_pa sched op data = Ok out ∧
    dr_out_pa op data chunks = Ok out ∧
    shape0 out = shape0 data ∧
    ∀ (j : nat) drow,
      rows data !! j = Some drow →
      ∃ orow, rows out !! j = Some orow ∧
        sparse_dot_guvec drow (op_col op) (op_row op) (op_S op) []
          (replicate (output_width op) zero) = Done orow.
Proof.
  intros Hop Hd Hw Hsched Hsum.
  assert (input_width op ≤ shape1 data) as Hw' by lia.
  pose proof (sparse_dot_valid op (zeros (shape0 data) (output_width op)) data
                Hop Hd Hw' (wf_zeros _ _) eq_refl (length_replicate _ _)) as Hser.
  pose proof (sparse_dot_pa_valid op sched (zeros (shape0 data) (output_width op))
                data Hop Hd Hw' (wf_zeros _ _) eq_refl (length_replicate _ _)
                (is_schedule_bounds _ _ _ Hsched)) as Hpar.
  eexists. split_and!.
  - unfold apply_A, apply_A_with. rewrite Hser. done.
  - unfold apply_A_pa, apply_A_with. rewrite Hpar. simpl. do 2 f_equal.
    apply list_eq. intros k.
    rewrite list_lookup_imap, lookup_zip_with.
    destruct (decide (k < shape0 data)) as [Hk|Hk].
    + rewrite lookup_replicate_2 by done.
      rewrite (list_lookup_lookup_total_lt (rows data) k) by done. simpl.
      destruct Hsched as [_ Hproj].
      assert (k ∈ range (shape0 data)) as Hin by (apply elem_of_seq; lia).
      by rewrite (proj1 (Forall_forall _ _) Hproj k Hin).
    + rewrite (lookup_ge_None_2 (replicate _ _)) by (rewrite length_replicate; lia).
      simpl. by destruct (rows data !! k).
  - rewrite dr_out_pa_apply_A by done.
    unfold apply_A, apply_A_with. rewrite Hser. done.
  - unfold shape0. simpl. rewrite length_zip_with, length_replicate. lia.
  - intros j drow Hj. simpl. rewrite lookup_zip_with, Hj. simpl.
    rewrite lookup_replicate_2 by (by eapply lookup_lt_Some). simpl.
    eexists. split; [done|]. unfold sparse_dot_guvec.
    apply (row_loop_valid op Hop).
    + rewrite (wf_lookup _ _ _ Hd Hj). lia.
    + apply length_replicate.
    + apply Forall_forall. intros i Hi. apply elem_of_seq in Hi. lia.
Qed.

(** ** Shapes and exceptions *)

(** The only exception the statements of [apply_A] can raise is
    [IndexError]. *)
Lemma apply_A_raises (op : SparseOperator F) (batch : ndarray2 F) (e : exn) :
  apply_A op batch = Err e → e = IndexError.
Proof.
  unfold apply_A, apply_A_with, sparse_dot.
  destruct (for_each _ _ _) as [out|e' out] eqn:Hrun; simpl; [done|].
  intros [= <-]. revert Hrun.
  apply (for_each_raises (λ e, e = IndexError)). intros j b e1 b1.
  apply (for_each_raises (λ e, e = IndexError)). intros i b' e2 b2.
  apply stmt_raises.
Qed.

(** C2, as the code has it: [apply_A] makes no shape check and never
    raises ShapeMismatch, whatever the column count of the batch.  For
    an operator that meets its invariant, a batch with at least
    [input_width] columns, a wider one as well as one with exactly
    [input_width] columns, is processed without any exception and gets
    an output of shape (batch_size, output_width). *)
Theorem apply_A_no_shape_check (op : SparseOperator F) (batch : ndarray2 F) :
  apply_A op batch ≠ Err ShapeMismatch ∧
  (valid_operator op → wf batch → input_width op ≤ shape1 batch →
   ∃ out, apply_A op batch = Ok out ∧
     shape0 out = shape0 batch ∧ shape1 out = output_width op).
Proof.
  split.
  - intros He. by apply apply_A_raises in He.
  - apply apply_A_valid_Ok.
Qed.

(** ** Loading *)

Lemma wrap32_small (z : Z) : (- 2 ^ 31 ≤ z < 2 ^ 31)%Z → wrap32 z = z.
Proof.
  intros Hz. unfold wrap32. rewrite Z.mod_small by lia. lia.
Qed.

(** C8, as the code has it: loading validates nothing and raises no
    InvalidOperator.  It always completes, with every external [col]
    and [row] index decreased by one (in [int32]) and the weights as
    they are.  When the external arrays have one length and hold
    one-based indices within the widths, the operator it builds has
    [0 <= col[i] < input_width] and [0 <= row[i] < output_width] for
    all [i]. *)
Theorem load_no_validation (ds : dataset F) (in_width out_width : nat) :
  ∃ op,
    load ds in_width out_width = Ok op ∧
    op_col op = (λ c, wrap32 (c - 1)) <$> ds_col ds ∧
    op_row op = (λ r, wrap32 (r - 1)) <$> ds_row ds ∧
    op_S op = ds_S ds ∧
    input_width op = in_width ∧ output_width op = out_width ∧
    (length (ds_col ds) = length (ds_S ds) →
     length (ds_row ds) = length (ds_S ds) →
     Forall (λ c, 1 ≤ c ≤ Z.of_nat in_width)%Z (ds_col ds) →
     Forall (λ r, 1 ≤ r ≤ Z.of_nat out_width)%Z (ds_row ds) →
     (Z.of_nat in_width ≤ 2 ^ 31)%Z → (Z.of_nat out_width ≤ 2 ^ 31)%Z →
     valid_operator op).
Proof.
  eexists. split; [reflexivity|]. simpl. split_and!; [done..|].
  intros Hlc Hlr Hc Hr Hin Hout. unfold valid_operator. simpl.
  rewrite !length_fmap. split_and!; [done|done| |].
  - apply Forall_fmap. eapply Forall_impl; [exact Hc|]. simpl.
    intros c Hc1. rewrite wrap32_small; lia.
  - apply Forall_fmap. eapply Forall_impl; [exact Hr|]. simpl.
    intros r Hr1. rewrite wrap32_small; lia.
Qed.

(** ** Identity-like operators *)

Lemma filter_lookup_NoDup (l : list Z) (x : Z) (i0 : nat) :
  NoDup l → l !! i0 = Some x →
  filter (λ i, l !!! i = x) (seq 0 (length l)) = [i0].
Proof.
  intros Hnd Hi0. apply Permutation_singleton_r. apply NoDup_Permutation.
  - apply NoDup_filter, NoDup_seq.
  - apply NoDup_singleton.
  - intros i. rewrite list_elem_of_filter, elem_of_seq, list_elem_of_singleton.
    split.
    + intros [Hi Hlt]. eapply NoDup_lookup; [done| |done].
      rewrite <- Hi. apply list_lookup_lookup_total_lt. lia.
    + intros ->. split; [by apply list_lookup_total_correct|].
      apply lookup_lt_Some in Hi0. lia.
Qed.

(** C5, as the code has it: for an operator with [input_width =
    output_width], [row = col], every weight 1, and [row] a
    permutation of [0 .. width-1] (every index once), and a batch of
    that width all of whose entries [x] satisfy [0 + x*1 = x], [apply_A]
    returns the batch itself.  (At binary64 every entry but [-0.0]
    satisfies it.) *)
Theorem apply_A_identity (op : SparseOperator F) (batch : ndarray2 F) :
  valid_operator op →
  input_width op = output_width op →
  op_row op = op_col op →
  Forall (λ w, w = one) (op_S op) →
  op_row op ≡ₚ Z.of_nat <$> range (output_width op) →
  wf batch → shape1 batch = input_width op →
  Forall (Forall (λ x, add zero (mul x one) = x)) (rows batch) →
  apply_A op batch = Ok batch.
Proof.
  intros Hop Hsq Hrc Hone Hperm Hb Hw Hlaw.
  destruct (apply_A_cells op batch) as (out & Hrun & Hn & Hm & Hwf & Hcell);
    [done..|].
  rewrite Hrun. f_equal.
  apply ndarray2_ext; [done|done|done|congruence|].
  intros j r Hj Hr. rewrite Hn in Hj.
  destruct (lookup_lt_is_Some_2 (rows batch) j Hj) as [drow Hdj].
  rewrite (Hcell j r drow) by (done || lia).
  rewrite (getitem2_cell batch j r drow) by (done || lia). f_equal.
  assert (NoDup (op_row op)) as Hnd.
  { rewrite Hperm. apply NoDup_fmap_2; [apply _|apply NoDup_seq]. }
  assert (Z.of_nat r ∈ op_row op) as Hin.
  { rewrite Hperm. apply list_elem_of_fmap_2. apply elem_of_seq. lia. }
  apply list_elem_of_lookup in Hin as [i0 Hi0].
  destruct Hop as (Hlc & Hlr & _ & _).
  unfold cell_sum, range. rewrite <- Hlr.
  rewrite (filter_lookup_NoDup _ _ i0) by done. simpl.
  pose proof (lookup_lt_Some _ _ _ Hi0) as Hlt.
  rewrite <- Hrc. rewrite (list_lookup_total_correct _ _ _ Hi0), Nat2Z.id.
  rewrite (Forall_lookup_total_1 _ _ i0 Hone) by lia.
  pose proof (Forall_lookup_1 _ _ _ _ Hlaw Hdj) as Hrow.
  apply (Forall_lookup_total_1 _ _ r Hrow).
  rewrite (wf_lookup _ _ _ Hb Hdj). lia.
Qed.

(** ** Linearity over exact arithmetic *)

Section Exact.

(** The scalars form a commutative semiring: the arithmetic is
    exact. *)
Hypothesis F_semiring : semi_ring_theory zero one add mul eq.

Add Ring F_ring : F_semiring.

Lemma wf_lin_array a (x : ndarray2 F) b (y : ndarray2 F) :
  wf x → wf y → shape1 x = shape1 y → wf (lin_array a x b y).
Proof.
  intros Hx Hy Hm. unfold wf. simpl. apply Forall_lookup_2. intros j r Hj.
  apply lookup_zip_with_Some in Hj as (rx & ry & -> & Hrx & Hry).
  rewrite length_zip_with.
  rewrite (wf_lookup _ _ _ Hx Hrx), (wf_lookup _ _ _ Hy Hry). lia.
Qed.

Lemma cell_sum_linear (op : SparseOperator F) a b (d1 d2 : list F) idx r u v :
  valid_operator op →
  length d1 = input_width op → length d2 = input_width op →
  Forall (λ i, i < length (op_S op)) idx →
  cell_sum (op_col op) (op_row op) (op_S op)
    (zip_with (λ x y, add (mul a x) (mul b y)) d1 d2) idx r
    (add (mul a u) (mul b v)) =
  add (mul a (cell_sum (op_col op) (op_row op) (op_S op) d1 idx r u))
      (mul b (cell_sum (op_col op) (op_row op) (op_S op) d2 idx r v)).
Proof.
  intros Hop Hd1 Hd2 Hidx. revert u v. unfold cell_sum.
  induction Hidx as [|i idx Hi _ IH]; intros u v; simpl; [done|].
  rewrite filter_cons. case_decide; [|apply IH]. simpl.
  pose proof (valid_col_lookup op Hop i Hi) as Hc.
  rewrite (lookup_total_zip_with (λ x y, add (mul a x) (mul b y)) d1 d2
             (Z.to_nat (op_col op !!! i))) by lia.
  rewrite <- IH. f_equal.
  generalize (d1 !!! Z.to_nat (op_col op !!! i))
    (d2 !!! Z.to_nat (op_col op !!! i)) (op_S op !!! i).
  intros x1 x2 w. ring.
Qed.

(** C6, as the code has it: over exact arithmetic [apply_A] is linear in the batch: for an
    operator that meets its invariant, two batches of its width with
    the same number of rows and scalars [a], [b], [apply_A] of
    [a*batch1 + b*batch2] is [a*apply_A(batch1) + b*apply_A(batch2)]. *)
Theorem apply_A_linear (op : SparseOperator F) (a b : F)
    (batch1 batch2 : ndarray2 F) :
  valid_operator op →
  wf batch1 → wf batch2 →
  shape1 batch1 = input_width op → shape1 batch2 = input_width op →
  shape0 batch1 = shape0 batch2 →
  ∃ out1 out2,
    apply_A op batch1 = Ok out1 ∧
    apply_A op batch2 = Ok out2 ∧
    apply_A op (lin_array a batch1 b batch2) = Ok (lin_array a out1 b out2).
Proof.
  intros Hop Hb1 Hb2 Hw1 Hw2 Hn.
  destruct (apply_A_cells op batch1) as (o1 & Hr1 & Hn1 & Hm1 & Hwf1 & Hc1);
    [done..|].
  destruct (apply_A_cells op batch2) as (o2 & Hr2 & Hn2 & Hm2 & Hwf2 & Hc2);
    [done..|].
  destruct (apply_A_cells op (lin_array a batch1 b batch2))
    as (o & Hr & Hn' & Hm' & Hwf & Hc);
    [done|apply wf_lin_array; congruence|done|].
  exists o1, o2. split_and!; [done|done|]. rewrite Hr. f_equal.
  assert (shape0 (lin_array a batch1 b batch2) = shape0 batch1) as Hnl.
  { unfold shape0 in *. simpl. rewrite length_zip_with. lia. }
  apply ndarray2_ext; [done|apply wf_lin_array; congruence| |simpl; congruence|].
  { unfold shape0 in *. simpl. rewrite length_zip_with. simpl in *. lia. }
  intros j r Hj Hlt. rewrite Hn', Hnl in Hj. rewrite Hm' in Hlt.
  destruct (lookup_lt_is_Some_2 (rows batch1) j Hj) as [d1 Hd1].
  destruct (lookup_lt_is_Some_2 (rows batch2) j) as [d2 Hd2];
    [unfold shape0 in *; lia|].
  destruct (lookup_lt_is_Some_2 (rows o1) j) as [r1 Ho1];
    [unfold shape0 in *; lia|].
  destruct (lookup_lt_is_Some_2 (rows o2) j) as [r2 Ho2];
    [unfold shape0 in *; lia|].
  specialize (Hc1 j r d1 Hd1 Hlt). specialize (Hc2 j r d2 Hd2 Hlt).
  rewrite (getitem2_cell o1 j r r1) in Hc1 by (done || lia).
  rewrite (getitem2_cell o2 j r r2) in Hc2 by (done || lia).
  injection Hc1 as Hc1. injection Hc2 as Hc2.
  rewrite (Hc j r (zip_with (λ x y, add (mul a x) (mul b y)) d1 d2));
    [|simpl; by rewrite lookup_zip_with, Hd1, Hd2|done].
  rewrite (getitem2_cell (lin_array a o1 b o2) j r
             (zip_with (λ x y, add (mul a x) (mul b y)) r1 r2));
    [|apply wf_lin_array; congruence
     |simpl; by rewrite lookup_zip_with, Ho1, Ho2|simpl; lia].
  f_equal.
  rewrite (lookup_total_zip_with (λ x y, add (mul a x) (mul b y)) r1 r2 r)
    by (rewrite ?(wf_lookup _ _ _ Hwf1 Ho1), ?(wf_lookup _ _ _ Hwf2 Ho2); lia).
  rewrite Hc1, Hc2.
  rewrite <- (cell_sum_linear op a b d1 d2); [|done| | |].
  - f_equal. ring.
  - rewrite (wf_lookup _ _ _ Hb1 Hd1). done.
  - rewrite (wf_lookup _ _ _ Hb2 Hd2). done.
  - apply Forall_forall. intros i Hi. apply elem_of_seq in Hi. lia.
Qed.

End Exact.

(** * Further properties of the kernels *)

(** ** What every run keeps *)

(** A property of the buffer that every step keeps, whether the step
    completes or raises, holds of the buffer the loop leaves. *)
Lemma for_each_inv {X St} (P : St → Prop) (xs : list X)
    (body : X → St → outcome St) (buf : St) :
  (∀ x b, x ∈ xs → P b → P (buffer_of (body x b))) →
  P buf → P (buffer_of (for_each xs body buf)).
Proof.
  revert buf. induction xs as [|x xs IH]; intros buf Hstep Hbuf; simpl; [done|].
  pose proof (Hstep x buf ltac:(left) Hbuf) as Hx.
  destruct (body x buf) as [b|e b]; simpl in *; [|done].
  apply IH; [|done]. intros y b' Hy. apply Hstep. by right.
Qed.

Lemma setitem2_rows (buf buf' : ndarray2 F) (j k : Z) (v : F) :
  setitem2 buf j k v = Some buf' →
  shape1 buf' = shape1 buf ∧
  ∃ (j' k' : nat) r, norm_index (shape0 buf) j = Some j' ∧
    rows buf !! j' = Some r ∧ rows buf' = <[j' := <[k' := v]> r]> (rows buf).
Proof.
  unfold setitem2. intros Hs.
  destruct (norm_index (shape0 buf) j) as [j'|] eqn:Hj; simpl in Hs; [|done].
  destruct (norm_index (shape1 buf) k) as [k'|]; simpl in Hs; [|done].
  destruct (rows buf !! j') as [r|] eqn:Hr; simpl in Hs; [|done].
  destruct (r !! k'); simpl in Hs; [|done]. injection Hs as <-. simpl.
  split; [done|]. by exists j', k', r.
Qed.

(** A statement that stores keeps the extents of the buffer and the
    length of each of its rows, and touches row [j] only. *)
Lemma accumulate_rows data col row S (j i : nat) (buf buf' : ndarray2 F) :
  accumulate data col row S j i buf = Some buf' →
  shape1 buf' = shape1 buf ∧
  length <$> rows buf' = length <$> rows buf ∧
  ∀ k, k ≠ j → rows buf' !! k = rows buf !! k.
Proof.
  unfold accumulate. intros Ha.
  destruct (getitem1 row _) as [r|]; simpl in Ha; [|done].
  destruct (getitem2 buf _ r) as [old|]; simpl in Ha; [|done].
  destruct (getitem1 col _) as [c|]; simpl in Ha; [|done].
  destruct (getitem2 data _ c) as [x|]; simpl in Ha; [|done].
  destruct (getitem1 S _) as [w|]; simpl in Ha; [|done].
  apply setitem2_rows in Ha as (Hm & j' & k' & orow & Hj & Hr & ->).
  assert (j' = j) as ->.
  { pose proof (norm_index_lt _ _ _ Hj) as Hlt. unfold norm_index in Hj.
    repeat case_bool_decide; simplify_eq; lia. }
  split_and!; [done| |].
  - rewrite list_fmap_insert, length_insert. apply list_insert_id.
    by rewrite list_lookup_fmap, Hr.
  - intros k Hk. by apply list_lookup_insert_ne.
Qed.

Lemma stmt_accumulate_inv (P : ndarray2 F → Prop) data col row S j i buf :
  (∀ buf', accumulate data col row S j i buf = Some buf' → P buf') →
  P buf → P (buffer_of (stmt (accumulate data col row S j i) buf)).
Proof.
  intros Hstep Hbuf. unfold stmt.
  destruct (accumulate _ _ _ _ _ _ _) as [buf'|]; simpl; auto.
Qed.

(** The same for a whole run of [sparse_dot], completed or not. *)
Lemma sparse_dot_rows_kept (data_out data : ndarray2 F) col row S :
  let out := buffer_of (sparse_dot data_out data col row S) in
  shape1 out = shape1 data_out ∧
  length <$> rows out = length <$> rows data_out ∧
  ∀ k, shape0 data ≤ k → rows out !! k = rows data_out !! k.
Proof.
  unfold sparse_dot.
  apply (for_each_inv (λ b, shape1 b = shape1 data_out ∧
           length <$> rows b = length <$> rows data_out ∧
           ∀ k, shape0 data ≤ k → rows b !! k = rows data_out !! k));
    [|done].
  intros j b Hj Hb. apply elem_of_seq in Hj.
  apply (for_each_inv (λ b, shape1 b = shape1 data_out ∧
           length <$> rows b = length <$> rows data_out ∧
           ∀ k, shape0 data ≤ k → rows b !! k = rows data_out !! k));
    [|done].
  intros i b' _ (Hm & Hl & Hk). apply stmt_accumulate_inv; [|done].
  intros b'' Ha. apply accumulate_rows in Ha as (Hm' & Hl' & Hk').
  split_and!; [congruence|congruence|].
  intros k Hge. rewrite Hk' by lia. by apply Hk.
Qed.

Lemma wf_row_lengths (a b : ndarray2 F) :
  shape1 a = shape1 b → length <$> rows a = length <$> rows b → wf b → wf a.
Proof.
  intros Hm Hl Hb. unfold wf in *. rewrite Hm.
  apply (Forall_fmap length (λ n, n = shape1 b)).
  rewrite Hl. by apply (Forall_fmap length (λ n, n = shape1 b)).
Qed.

(** X1: [sparse_dot] never reshapes its buffer.  Whatever the
    arguments, and whether the call completes or raises, the buffer it
    leaves has the two extents it had, and is rectangular if it was;
    hence an output that [apply_A] returns always has shape
    (batch_size, output_width). *)
Theorem sparse_dot_keeps_shape (op : SparseOperator F)
    (data_out data : ndarray2 F) col row S :
  (let out := buffer_of (sparse_dot data_out data col row S) in
   shape0 out = shape0 data_out ∧ shape1 out = shape1 data_out ∧
   (wf data_out → wf out)) ∧
  ∀ out, apply_A op data = Ok out →
    shape0 out = shape0 data ∧ shape1 out = output_width op ∧ wf out.
Proof.
  assert (∀ (b d : ndarray2 F) c r w,
            let out := buffer_of (sparse_dot b d c r w) in
            shape0 out = shape0 b ∧ shape1 out = shape1 b ∧ (wf b → wf out))
    as Hkeep.
  { intros b d c r w. destruct (sparse_dot_rows_kept b d c r w) as (Hm & Hl & _).
    simpl. split_and!; [|done|by apply wf_row_lengths].
    unfold shape0. by rewrite <- (length_fmap length), Hl, length_fmap. }
  split; [apply Hkeep|].
  intros out Hout. unfold apply_A, apply_A_with in Hout.
  specialize (Hkeep (zeros (shape0 data) (output_width op)) data
                (op_col op) (op_row op) (op_S op)).
  destruct (sparse_dot _ _ _ _ _) as [b|e b]; simpl in *; [|done].
  injection Hout as <-. destruct Hkeep as (Hn & Hm & Hwf).
  split_and!; [|done|apply Hwf, wf_zeros].
  rewrite Hn. apply length_replicate.
Qed.

(** ** Nothing to do *)

(** X3: with no nonzero ([S] empty) or with a batch of no rows,
    [apply_A] returns the zero array of shape (batch_size,
    output_width) without looking at [col], [row] or the batch: no
    index is checked, so an operator that breaks its invariant passes
    too. *)
Theorem apply_A_nothing_to_do (op : SparseOperator F) (batch : ndarray2 F) :
  op_S op = [] ∨ rows batch = [] →
  apply_A op batch = Ok (zeros (shape0 batch) (output_width op)).
Proof.
  intros [HS|Hb]; unfold apply_A, apply_A_with, sparse_dot.
  - rewrite HS. simpl.
    generalize (zeros (shape0 batch) (output_width op)).
    generalize (range (shape0 batch)). intros js.
    induction js as [|j js IH]; intros buf; simpl; [done|apply IH].
  - unfold shape0. rewrite Hb. done.
Qed.

(** ** The part of [col] and [row] that is read *)

(** X4: the loops run over [range(S.size)], so entries of [col] and
    [row] at positions from [S.size] on are never read: cutting both
    arrays to the length of [S] changes nothing, result or
    exception. *)
Theorem apply_A_ignores_tail (op : SparseOperator F) (batch : ndarray2 F) :
  apply_A op batch =
  apply_A {| op_col := take (length (op_S op)) (op_col op);
             op_row := take (length (op_S op)) (op_row op);
             op_S := op_S op;
             input_width := input_width op;
             output_width := output_width op |} batch.
Proof.
  unfold apply_A, apply_A_with, sparse_dot. simpl. f_equal.
  apply for_each_ext. intros j buf _.
  apply for_each_ext. intros i b Hi. apply elem_of_seq in Hi.
  unfold stmt, accumulate. rewrite !getitem1_nat.
  by rewrite !lookup_take_lt by lia.
Qed.

(** ** Indices NumPy accepts *)

Lemma norm_index_is_Some (n : nat) (i : Z) :
  is_Some (norm_index n i) ↔ index_ok n i.
Proof.
  unfold norm_index, index_ok. repeat case_bool_decide; split;
    intros Hi; try lia; try (by eexists); by destruct Hi.
Qed.

Lemma norm_index_wrap (n : nat) (i : Z) :
  norm_index n (wrap_index n i) = norm_index n i.
Proof.
  unfold wrap_index, norm_index.
  repeat case_bool_decide; try lia; try done; f_equal; lia.
Qed.

Lemma getitem1_is_Some {A} (a : list A) (i : Z) :
  is_Some (getitem1 a i) ↔ index_ok (length a) i.
Proof.
  rewrite <- norm_index_is_Some. unfold getitem1.
  destruct (norm_index (length a) i) as [k|] eqn:Hk; simpl.
  - split; [by eexists|]. intros _. apply lookup_lt_is_Some_2.
    by eapply norm_index_lt.
  - split; intros [? ?]; done.
Qed.

Lemma setitem1_is_Some {A} (a : list A) (i : Z) (v : A) :
  is_Some (setitem1 a i v) ↔ index_ok (length a) i.
Proof.
  rewrite <- norm_index_is_Some. unfold setitem1.
  destruct (norm_index (length a) i); simpl; [|done].
  split; intros _; by eexists.
Qed.

Lemma getitem2_wrap (a : ndarray2 F) (j k : Z) :
  getitem2 a j (wrap_index (shape1 a) k) = getitem2 a j k.
Proof. unfold getitem2. by rewrite norm_index_wrap. Qed.

Lemma setitem2_wrap (a : ndarray2 F) (j k : Z) (v : F) :
  setitem2 a j (wrap_index (shape1 a) k) v = setitem2 a j k v.
Proof. unfold setitem2. by rewrite norm_index_wrap. Qed.

Lemma getitem1_fmap {A B} (f : A → B) (a : list A) (i : nat) :
  getitem1 (f <$> a) (Z.of_nat i) = f <$> getitem1 a (Z.of_nat i).
Proof. by rewrite !getitem1_nat, list_lookup_fmap. Qed.

(** Two bodies that agree on every buffer with a property the first
    one keeps give the same loop. *)
Lemma for_each_ext_inv {X St} (P : St → Prop) (xs : list X)
    (f g : X → St → outcome St) (buf : St) :
  (∀ x b, x ∈ xs → P b → f x b = g x b) →
  (∀ x b, x ∈ xs → P b → P (buffer_of (f x b))) →
  P buf → for_each xs f buf = for_each xs g buf.
Proof.
  revert buf. induction xs as [|x xs IH]; intros buf Hfg Hkeep Hbuf; simpl; [done|].
  rewrite <- (Hfg x buf) by (done || left).
  pose proof (Hkeep x buf ltac:(left) Hbuf) as Hx.
  destruct (f x buf) as [b|e b]; simpl in *; [|done].
  apply IH; [| |done].
  - intros y b' Hy. apply Hfg. by right.
  - intros y b' Hy. apply Hkeep. by right.
Qed.

(** X5: a negative index counts from the end, in the batch and in the
    output alike.  [apply_A] with an operator gives what it gives with
    the operator whose indices in [-width, 0) are replaced by the
    index plus the width: an index [-1], such as loading an external
    index [0] produces, silently addresses the last column or the last
    output cell. *)
Theorem apply_A_negative_indices (op : SparseOperator F) (batch : ndarray2 F) :
  apply_A op batch =
  apply_A {| op_col := wrap_index (shape1 batch) <$> op_col op;
             op_row := wrap_index (output_width op) <$> op_row op;
             op_S := op_S op;
             input_width := input_width op;
             output_width := output_width op |} batch.
Proof.
  unfold apply_A, apply_A_with, sparse_dot. simpl. f_equal.
  set (P := λ b : ndarray2 F, shape1 b = output_width op).
  assert (∀ j i b, P b →
            P (buffer_of (stmt (accumulate batch (op_col op) (op_row op) (op_S op) j i) b)))
    as Hkeep.
  { intros j i b Hb. apply stmt_accumulate_inv; [|done].
    intros b' Ha. apply accumulate_rows in Ha as (Hm & _). unfold P in *. congruence. }
  apply (for_each_ext_inv P); [| |done].
  - intros j b _ Hb. apply (for_each_ext_inv P); [| |done].
    + intros i b' _ Hb'. unfold stmt, accumulate. rewrite !getitem1_fmap.
      destruct (getitem1 (op_row op) _) as [r|]; simpl; [|done].
      rewrite <- Hb', getitem2_wrap.
      destruct (getitem2 b' _ r) as [old|]; simpl; [|done].
      destruct (getitem1 (op_col op) _) as [c|]; simpl; [|done].
      rewrite getitem2_wrap.
      destruct (getitem2 batch _ c) as [x|]; simpl; [|done].
      destruct (getitem1 (op_S op) _) as [w|]; simpl; [|done].
      by rewrite setitem2_wrap.
    + intros i b' _. apply Hkeep.
  - intros j b _ Hb. apply (for_each_inv P); [|done].
    intros i b' _. apply Hkeep.
Qed.

(** ** When every statement stores *)

Lemma for_each_Done_inv {X St} (P : St → Prop) (xs : list X)
    (body : X → St → outcome St) (buf : St) :
  (∀ x b, x ∈ xs → P b → ∃ b', body x b = Done b' ∧ P b') →
  P buf → ∃ b', for_each xs body buf = Done b' ∧ P b'.
Proof.
  revert buf. induction xs as [|x xs IH]; intros buf Hstep Hbuf; simpl.
  - by exists buf.
  - destruct (Hstep x buf ltac:(left) Hbuf) as (b & -> & Hb).
    apply IH; [|done]. intros y b' Hy. apply Hstep. by right.
Qed.

(** A statement stores exactly when its two operator entries exist
    and are indices NumPy accepts for the batch and for the buffer. *)
Lemma accumulate_is_Some data col row S (j i : nat) (buf : ndarray2 F) drow orow :
  wf data → wf buf → rows data !! j = Some drow → rows buf !! j = Some orow →
  i < length S →
  is_Some (accumulate data col row S j i buf) ↔
  ∃ c r, col !! i = Some c ∧ row !! i = Some r ∧
         index_ok (shape1 data) c ∧ index_ok (shape1 buf) r.
Proof.
  intros Hd Hb Hdj Hbj Hi.
  rewrite (accumulate_row _ _ _ _ _ _ _ _ _ Hd Hb Hdj Hbj), fmap_is_Some.
  rewrite <- (wf_lookup _ _ _ Hd Hdj), <- (wf_lookup _ _ _ Hb Hbj).
  unfold accumulate1. rewrite !getitem1_nat.
  destruct (lookup_lt_is_Some_2 S i Hi) as [w Hw]. rewrite Hw.
  split.
  - destruct (row !! i) as [r|]; simpl; [|by intros [? ?]].
    destruct (getitem1 orow r) as [old|] eqn:Hold; simpl; [|by intros [? ?]].
    destruct (col !! i) as [c|]; simpl; [|by intros [? ?]].
    destruct (getitem1 drow c) as [x|] eqn:Hx; simpl; [|by intros [? ?]].
    intros _. exists c, r. split_and!; [done|done| |].
    + apply getitem1_is_Some. by rewrite Hx.
    + apply getitem1_is_Some. by rewrite Hold.
  - intros (c & r & -> & -> & Hc & Hr). simpl.
    destruct (proj2 (getitem1_is_Some orow r) Hr) as [old ->]. simpl.
    destruct (proj2 (getitem1_is_Some drow c) Hc) as [x ->]. simpl.
    by apply setitem1_is_Some.
Qed.

(** When every nonzero names indices NumPy accepts and the buffer has
    a row for every batch row, every statement stores and
    [sparse_dot] completes. *)
Lemma sparse_dot_completes (data_out data : ndarray2 F) col row S :
  wf data → wf data_out → shape0 data ≤ shape0 data_out →
  (∀ i, i < length S →
     ∃ c r, col !! i = Some c ∧ row !! i = Some r ∧
            index_ok (shape1 data) c ∧ index_ok (shape1 data_out) r) →
  ∃ out, sparse_dot data_out data col row S = Done out.
Proof.
  intros Hd Hb Hn Hcond.
  set (P := λ b : ndarray2 F,
         wf b ∧ shape1 b = shape1 data_out ∧ shape0 b = shape0 data_out).
  assert (∀ j i b b', P b → accumulate data col row S j i b = Some b' → P b')
    as Hacc.
  { intros j i b b' (Hwf & Hm & Hn') Ha.
    apply accumulate_rows in Ha as (Hm' & Hl & _). split_and!.
    - by apply (wf_row_lengths _ b).
    - congruence.
    - unfold shape0 in *. by rewrite <- (length_fmap length), Hl, length_fmap. }
  destruct (for_each_Done_inv P (range (shape0 data))
              (λ j, for_each (range (length S))
                 (λ i, stmt (accumulate data col row S j i))) data_out)
    as (out & Hrun & _); [|done|by exists out].
  intros j b Hj Hp. apply elem_of_seq in Hj.
  apply (for_each_Done_inv P); [|done].
  intros i b' Hi Hp'. apply elem_of_seq in Hi.
  destruct (lookup_lt_is_Some_2 (rows data) j) as [drow Hdj]; [unfold shape0 in *; lia|].
  destruct (lookup_lt_is_Some_2 (rows b') j) as [orow Hoj].
  { destruct Hp' as (_ & _ & Hn'). unfold shape0 in *. lia. }
  destruct (Hcond i ltac:(lia)) as (c & r & Hc & Hr & Hic & Hir).
  destruct (proj2 (accumulate_is_Some data col row S j i b' drow orow
                     Hd (proj1 Hp') Hdj Hoj ltac:(lia))) as [b'' Ha].
  { exists c, r. destruct Hp' as (_ & -> & _). done. }
  exists b''. unfold stmt. rewrite Ha. split; [done|]. by eapply Hacc.
Qed.

(** X2: [sparse_dot] writes only the rows it loops over.  For an
    operator that meets its invariant, a batch with the operator's
    columns and a buffer of the output width with at least as many
    rows as the batch, the call completes and every row of [data_out]
    at an index from [data.shape[0]] on is what it was before. *)
Theorem sparse_dot_frame (op : SparseOperator F) (data_out data : ndarray2 F) :
  valid_operator op →
  wf data → input_width op ≤ shape1 data →
  wf data_out → shape1 data_out = output_width op →
  shape0 data ≤ shape0 data_out →
  ∃ out,
    sparse_dot data_out data (op_col op) (op_row op) (op_S op) = Done out ∧
    ∀ k, shape0 data ≤ k → rows out !! k = rows data_out !! k.
Proof.
  intros Hop Hd Hw Hb Hm Hn.
  destruct (sparse_dot_completes data_out data (op_col op) (op_row op) (op_S op))
    as [out Hrun]; [done..| |].
  - intros i Hi. pose proof (valid_col_lookup op Hop i Hi) as Hc.
    pose proof (valid_row_lookup op Hop i Hi) as Hr.
    destruct Hop as (Hlc & Hlr & _ & _).
    exists (op_col op !!! i), (op_row op !!! i). unfold index_ok.
    split_and!; try (apply list_lookup_lookup_total_lt); lia.
  - exists out. split; [done|]. intros k Hk.
    pose proof (sparse_dot_rows_kept data_out data (op_col op) (op_row op) (op_S op))
      as Hkept.
    rewrite Hrun in Hkept. simpl in Hkept. by apply Hkept.
Qed.

(** ** Calling the kernel again *)

Lemma cell_sum_app col row S drow idx1 idx2 r init :
  cell_sum col row S drow (idx1 ++ idx2) r init =
  cell_sum col row S drow idx2 r (cell_sum col row S drow idx1 r init).
Proof. unfold cell_sum. by rewrite filter_app, foldl_app. Qed.

(** X7: the kernel does not reset its buffer.  For an operator that
    meets its invariant, a second call of [sparse_dot] on the buffer
    the first call left adds every contribution once more: each cell
    ends as its initial value with the contributions of the pass over
    [range(nnz)] added twice over, pass after pass. *)
Theorem sparse_dot_twice (op : SparseOperator F) (data_out data : ndarray2 F) :
  valid_operator op →
  wf data → shape1 data = input_width op →
  wf data_out → shape1 data_out = output_width op →
  shape0 data_out = shape0 data →
  ∃ out1 out2,
    sparse_dot data_out data (op_col op) (op_row op) (op_S op) = Done out1 ∧
    sparse_dot out1 data (op_col op) (op_row op) (op_S op) = Done out2 ∧
    ∀ (j r : nat) drow init,
      rows data !! j = Some drow →
      getitem2 data_out (Z.of_nat j) (Z.of_nat r) = Some init →
      r < output_width op →
      getitem2 out2 (Z.of_nat j) (Z.of_nat r) =
      Some (cell_sum (op_col op) (op_row op) (op_S op) drow
              (range (length (op_S op)) ++ range (length (op_S op))) r init).
Proof.
  intros Hop Hd Hw Hb Hm Hn.
  destruct (sparse_dot_cells op data_out data)
    as (out1 & Hrun1 & Hn1 & Hm1 & Hwf1 & Hcell1); [done|done|lia|done..|].
  destruct (sparse_dot_cells op out1 data)
    as (out2 & Hrun2 & Hn2 & Hm2 & Hwf2 & Hcell2); [done|done|lia|done..|].
  exists out1, out2. split_and!; [done|done|].
  intros j r drow init Hj Hinit Hr. rewrite cell_sum_app.
  apply Hcell2; [done| |done]. by apply Hcell1.
Qed.

(** ** The serial loops as one run *)

Lemma for_each_fmap {X Y St} (g : X → Y) (xs : list X)
    (body : Y → St → outcome St) (buf : St) :
  for_each (g <$> xs) body buf = for_each xs (λ x, body (g x)) buf.
Proof.
  revert buf. induction xs as [|x xs IH]; intros buf; simpl; [done|].
  destruct (body (g x) buf); [apply IH|done].
Qed.

Lemma for_each_bind {X Y St} (f : X → list Y) (xs : list X)
    (body : Y → St → outcome St) (buf : St) :
  for_each (xs ≫= f) body buf = for_each xs (λ x, for_each (f x) body) buf.
Proof.
  revert buf. induction xs as [|x xs IH]; intros buf; [done|].
  rewrite bind_cons, for_each_app. simpl.
  destruct (for_each (f x) body buf); [apply IH|done].
Qed.

Lemma filter_eq_seq (j k n : nat) :
  filter (λ a, a = j) (seq k n) = if decide (k ≤ j < k + n) then [j] else [].
Proof.
  revert k. induction n as [|n IH]; intros k; simpl.
  - case_decide; [lia|done].
  - rewrite filter_cons, IH. repeat case_decide; subst; try lia; done.
Qed.

Lemma filter_fst_pairs (j a : nat) (l : list nat) :
  (filter (λ p : nat * nat, p.1 = j) ((λ i, (a, i)) <$> l)).*2 =
  if decide (a = j) then l else [].
Proof.
  destruct (decide (a = j)) as [Heq|Hne].
  - induction l as [|i l IH]; [done|].
    rewrite fmap_cons, filter_cons_True by done. rewrite fmap_cons. simpl.
    by rewrite IH.
  - induction l as [|i l IH]; [done|].
    by rewrite fmap_cons, filter_cons_False by done.
Qed.

Lemma filter_serial (j : nat) (js l : list nat) :
  (filter (λ p : nat * nat, p.1 = j) (js ≫= λ a, (λ i, (a, i)) <$> l)).*2 =
  filter (λ a, a = j) js ≫= λ _, l.
Proof.
  induction js as [|a js IH]; [done|].
  rewrite bind_cons, filter_app, fmap_app, IH. cbv beta.
  rewrite filter_fst_pairs, filter_cons.
  case_decide; [by rewrite bind_cons|done].
Qed.

(** X8: the nested loops of [sparse_dot] are one of the runs allowed
    to [sparse_dot_pa].  The order in which the serial loops reach
    their statements keeps each row's statements in ascending order of
    [i], and on every input, valid or not, [sparse_dot] and
    [sparse_dot_pa] in that run end alike: same buffer, same
    exception. *)
Theorem sparse_dot_is_a_run (data_out data : ndarray2 F) col row S (n nnz : nat) :
  is_schedule n nnz (serial_schedule n nnz) ∧
  sparse_dot data_out data col row S =
  sparse_dot_pa (serial_schedule (shape0 data) (length S)) data_out data col row S.
Proof.
  split; [split|].
  - apply Forall_forall. intros [j i] Hp. unfold serial_schedule in Hp.
    apply list_elem_of_bind in Hp as (a & Hi & Ha).
    apply list_elem_of_fmap in Hi as (i' & [= -> ->] & _).
    apply elem_of_seq in Ha. simpl. lia.
  - apply Forall_forall. intros j Hj. apply elem_of_seq in Hj.
    unfold serial_schedule. rewrite filter_serial. unfold range.
    rewrite filter_eq_seq. rewrite decide_True by lia.
    simpl. by rewrite app_nil_r.
  - unfold sparse_dot, sparse_dot_pa, serial_schedule.
    rewrite for_each_bind. apply for_each_ext. intros j b _.
    by rewrite for_each_fmap.
Qed.

(** ** The generalised ufunc and the two-dimensional kernel *)

(** X10: the call of the generalised ufunc gives, on any initial
    content [alloc] of its output, what [sparse_dot] gives on that
    buffer, exceptions included; so it gives what [apply_A] gives when
    the output it is handed is all zero, which its body does not see
    to. *)
Theorem sparse_dot_guvec_call_spec (op : SparseOperator F) (alloc data : ndarray2 F) :
  length (op_col op) = length (op_S op) →
  length (op_row op) = length (op_S op) →
  wf data → wf alloc →
  shape0 alloc = shape0 data → shape1 alloc = output_width op →
  sparse_dot_guvec_call alloc data (op_col op) (op_row op) (op_S op)
    (arange (output_width op)) =
  returned (sparse_dot alloc data (op_col op) (op_row op) (op_S op)) ∧
  sparse_dot_guvec_call (zeros (shape0 data) (output_width op)) data
    (op_col op) (op_row op) (op_S op) (arange (output_width op)) =
  apply_A op data.
Proof.
  intros _ _ Hd Ha Hn Hm.
  assert (∀ b : ndarray2 F, wf b → shape0 b = shape0 data →
            shape1 b = output_width op →
            sparse_dot_guvec_call b data (op_col op) (op_row op) (op_S op)
              (arange (output_width op)) =
            returned (sparse_dot b data (op_col op) (op_row op) (op_S op))) as Hcall.
  { intros b Hb Hnb Hmb. rewrite sparse_dot_rows by done.
    unfold sparse_dot_guvec_call, arange, range.
    by rewrite length_fmap, length_seq, Hmb. }
  split; [by apply Hcall|].
  apply Hcall; [apply wf_zeros|apply length_replicate|done].
Qed.

(** ** Nonzeros in two parts *)

(** X11: the one-dimensional kernel over an operator made of two
    parts, one after the other, is the kernel over the first part
    followed, if that completes, by the kernel over the second part on
    the row the first left. *)
Theorem sparse_dot_guvec_app (data : list F) (col1 col2 row1 row2 : list Z)
    (S1 S2 : list F) (shape_arr : list Z) (data_out : list F) :
  length col1 = length S1 → length row1 = length S1 →
  sparse_dot_guvec data (col1 ++ col2) (row1 ++ row2) (S1 ++ S2) shape_arr data_out =
  match sparse_dot_guvec data col1 row1 S1 shape_arr data_out with
  | Done out1 => sparse_dot_guvec data col2 row2 S2 shape_arr out1
  | Raised e out1 => Raised e out1
  end.
Proof.
  intros Hc Hr. unfold sparse_dot_guvec, range.
  rewrite length_app, seq_app, for_each_app. simpl.
  rewrite (for_each_ext (seq 0 (length S1)) _
             (λ i, stmt (accumulate1 data col1 row1 S1 i))).
  - destruct (for_each _ _ data_out) as [out1|e out1]; [|done].
    replace (seq (length S1) (length S2))
      with (Nat.add (length S1) <$> seq 0 (length S2))
      by (rewrite fmap_add_seq; f_equal; lia).
    rewrite for_each_fmap.
    apply for_each_ext. intros i b _. unfold stmt, accumulate1.
    rewrite !getitem1_nat.
    rewrite !lookup_app_r by lia.
    by replace (length S1 + i - length row1) with i by lia;
       replace (length S1 + i - length col1) with i by lia;
       replace (length S1 + i - length S1) with i by lia.
  - intros i b Hi. apply elem_of_seq in Hi. unfold stmt, accumulate1.
    rewrite !getitem1_nat. by rewrite !lookup_app_l by lia.
Qed.

(** ** The notebook's blocks *)

Lemma sum_uniform_chunks (n c : nat) : 0 < c → sum_list (uniform_chunks n c) = n.
Proof.
  intros Hc. unfold uniform_chunks. case_decide; [simpl; lia|].
  rewrite sum_list_with_app, sum_list_replicate.
  pose proof (Nat.div_mod_eq n c). case_decide; simpl; lia.
Qed.

(** X12: with blocks of one length [c > 0] (the notebook uses 50),
    the blocks cover the rows of the batch and none is longer than
    [c]; for an operator that meets its invariant and a batch with the
    operator's columns, the chunked evaluation returns the output that
    [apply_A] returns on the whole batch, whether or not [c] divides
    the number of rows. *)
Theorem dr_out_pa_uniform (op : SparseOperator F) (data : ndarray2 F) (c : nat) :
  valid_operator op → wf data → input_width op ≤ shape1 data → 0 < c →
  sum_list (uniform_chunks (shape0 data) c) = shape0 data ∧
  Forall (λ k, k ≤ c) (uniform_chunks (shape0 data) c) ∧
  ∃ out, apply_A op data = Ok out ∧
    dr_out_pa op data (uniform_chunks (shape0 data) c) = Ok out.
Proof.
  intros Hop Hd Hw Hc. pose proof (sum_uniform_chunks (shape0 data) c Hc) as Hsum.
  split_and!; [done| |].
  - unfold uniform_chunks. case_decide; [apply Forall_singleton; lia|].
    apply Forall_app. split; [by apply Forall_replicate|].
    case_decide; [done|]. apply Forall_singleton.
    pose proof (Nat.mod_upper_bound (shape0 data) c). lia.
  - destruct (apply_A_valid_Ok op data Hop Hd Hw) as (out & Hout & _).
    exists out. split; [done|]. by rewrite dr_out_pa_apply_A.
Qed.

(** ** Blocks and rows *)

Lemma split_rows_concat (rs : list (list F)) (chunks : list nat) :
  sum_list chunks = length rs →
  concat (split_rows F rs chunks) = rs ∧
  length <$> split_rows F rs chunks = chunks.
Proof.
  revert rs. induction chunks as [|c chunks IH]; intros rs Hsum.
  - simpl in *. by destruct rs.
  - simpl in Hsum. destruct (IH (drop c rs)) as [Hcat Hlen];
      [rewrite length_drop; lia|].
    cbn [split_rows concat]. rewrite fmap_cons, Hcat, Hlen, take_drop, length_take.
    split; [done|]. f_equal. lia.
Qed.

Lemma split_rows_Forall (P : list F → Prop) (rs : list (list F)) (chunks : list nat) :
  Forall P rs → Forall (Forall P) (split_rows F rs chunks).
Proof.
  revert rs. induction chunks as [|c chunks IH]; intros rs Hrs; simpl; [done|].
  apply Forall_cons. split; [by apply Forall_take|]. by apply IH, Forall_drop.
Qed.

(** X13: cutting a batch into blocks loses nothing.  When the block
    lengths add up to the number of rows, block [k] has [chunks[k]]
    rows, every block is rectangular with the width of the batch, and
    the rows of the blocks, one block after the other, are the rows of
    the batch in their order. *)
Theorem from_array_blocks (data : ndarray2 F) (chunks : list nat) :
  wf data → sum_list chunks = shape0 data →
  shape0 <$> from_array data chunks = chunks ∧
  Forall (λ b, wf b ∧ shape1 b = shape1 data) (from_array data chunks) ∧
  concat (rows <$> from_array data chunks) = rows data.
Proof.
  intros Hd Hsum. unfold from_array.
  destruct (split_rows_concat (rows data) chunks Hsum) as [Hcat Hlen].
  rewrite <- !list_fmap_compose. split_and!.
  - by rewrite <- Hlen at 2.
  - apply Forall_fmap. eapply Forall_impl; [by apply split_rows_Forall|].
    intros rs Hrs. simpl. done.
  - by rewrite <- Hcat at 2; rewrite list_fmap_id.
Qed.

(** ** Any run on any buffer *)

(** X14: for an operator that meets its invariant, [sparse_dot_pa] in
    any run that keeps each row's statements in ascending order of [i]
    leaves, on any initial content of the buffer, the buffer that
    [sparse_dot] leaves: the order in which the rows advance never
    shows. *)
Theorem sparse_dot_pa_any_buffer (op : SparseOperator F) (sched : list (nat * nat))
    (data_out data : ndarray2 F) :
  valid_operator op →
  wf data → shape1 data = input_width op →
  wf data_out → shape1 data_out = output_width op →
  shape0 data_out = shape0 data →
  is_schedule (shape0 data) (length (op_S op)) sched →
  sparse_dot_pa sched data_out data (op_col op) (op_row op) (op_S op) =
  sparse_dot data_out data (op_col op) (op_row op) (op_S op).
Proof.
  intros Hop Hd Hw Hb Hm Hn Hsched.
  rewrite sparse_dot_valid by (done || lia).
  rewrite (sparse_dot_pa_valid op) by
    (done || lia || by apply is_schedule_bounds).
  do 2 f_equal. apply list_eq. intros k.
  rewrite list_lookup_imap, lookup_zip_with.
  destruct (decide (k < shape0 data)) as [Hk|Hk].
  - rewrite (list_lookup_lookup_total_lt (rows data) k) by done. simpl.
    destruct (rows data_out !! k) as [o|]; simpl; [|done].
    destruct Hsched as [_ Hproj].
    assert (k ∈ range (shape0 data)) as Hin by (apply elem_of_seq; lia).
    by rewrite (proj1 (Forall_forall _ _) Hproj k Hin).
  - rewrite (lookup_ge_None_2 (rows data_out)) by (unfold shape0 in *; lia).
    simpl. by destruct (rows data !! k).
Qed.

(** ** Loading, then applying *)

Lemma filter_ext_in {A} (P Q : A → Prop) `{∀ x, Decision (P x)}
    `{∀ x, Decision (Q x)} (l : list A) :
  (∀ x, x ∈ l → P x ↔ Q x) → filter P l = filter Q l.
Proof.
  induction l as [|x l IH]; intros HPQ; [done|].
  rewrite !filter_cons, IH by (intros y Hy; apply HPQ; by right).
  pose proof (HPQ x ltac:(left)). repeat case_decide; tauto || done.
Qed.

Lemma foldl_ext_in {A B} (f g : A → B → A) (l : list B) (a : A) :
  (∀ acc x, x ∈ l → f acc x = g acc x) → foldl f a l = foldl g a l.
Proof.
  revert a. induction l as [|x l IH]; intros a Hfg; simpl; [done|].
  rewrite Hfg by left. apply IH. intros acc y Hy. apply Hfg. by right.
Qed.

(** X15: loading and applying, in terms of the external data.  When
    the external arrays have one length and hold one-based indices
    within the widths, [apply_A] with the loaded operator returns, for
    a batch of the input width, the output whose cell [j, r] is the
    sum, from zero and in the order of the file, of
    [batch[j, col[i] - 1] * S[i]] over the entries [i] of the file
    with [row[i] = r + 1]. *)
Theorem load_then_apply (ds : dataset F) (in_width out_width : nat)
    (batch : ndarray2 F) :
  length (ds_col ds) = length (ds_S ds) →
  length (ds_row ds) = length (ds_S ds) →
  Forall (λ c, 1 ≤ c ≤ Z.of_nat in_width)%Z (ds_col ds) →
  Forall (λ r, 1 ≤ r ≤ Z.of_nat out_width)%Z (ds_row ds) →
  (Z.of_nat in_width ≤ 2 ^ 31)%Z → (Z.of_nat out_width ≤ 2 ^ 31)%Z →
  wf batch → shape1 batch = in_width →
  ∃ op out,
    load ds in_width out_width = Ok op ∧ apply_A op batch = Ok out ∧
    shape0 out = shape0 batch ∧ shape1 out = out_width ∧
    ∀ (j r : nat) drow,
      rows batch !! j = Some drow → r < out_width →
      getitem2 out (Z.of_nat j) (Z.of_nat r) =
      Some (foldl (λ acc i, add acc (mul (drow !!! Z.to_nat (ds_col ds !!! i - 1))
                                        (ds_S ds !!! i)))
              zero
              (filter (λ i, ds_row ds !!! i = (Z.of_nat r + 1)%Z)
                 (range (length (ds_S ds))))).
Proof.
  intros Hlc Hlr Hc Hr Hin Hout Hb Hw.
  eexists. destruct (apply_A_cells
    {| op_col := (λ c, wrap32 (c - 1)) <$> ds_col ds;
       op_row := (λ r, wrap32 (r - 1)) <$> ds_row ds;
       op_S := ds_S ds; input_width := in_width; output_width := out_width |}
    batch) as (out & Hrun & Hn & Hm & _ & Hcell); [|done|done|].
  { unfold valid_operator. simpl. rewrite !length_fmap.
    split_and!; [done|done| |].
    - apply Forall_fmap. eapply Forall_impl; [exact Hc|]. simpl.
      intros c Hc1. rewrite wrap32_small; lia.
    - apply Forall_fmap. eapply Forall_impl; [exact Hr|]. simpl.
      intros r Hr1. rewrite wrap32_small; lia. }
  exists out. split; [reflexivity|]. split_and!; [done..|].
  intros j r drow Hj Hlt. rewrite (Hcell j r drow Hj Hlt). f_equal.
  unfold cell_sum. simpl.
  rewrite (filter_ext_in _ (λ i, ds_row ds !!! i = (Z.of_nat r + 1)%Z)).
  - apply foldl_ext_in. intros acc i Hi.
    apply list_elem_of_filter in Hi as [_ Hi]. apply elem_of_seq in Hi.
    rewrite (list_lookup_total_fmap (λ c, wrap32 (c - 1)) (ds_col ds) i) by lia.
    pose proof (Forall_lookup_total_1 _ _ i Hc ltac:(lia)) as Hci. simpl in Hci.
    rewrite wrap32_small by lia. done.
  - intros i Hi. apply elem_of_seq in Hi.
    rewrite (list_lookup_total_fmap (λ r, wrap32 (r - 1)) (ds_row ds) i) by lia.
    pose proof (Forall_lookup_total_1 _ _ i Hr ltac:(lia)) as Hri. simpl in Hri.
    rewrite wrap32_small by lia. lia.
Qed.

(** ** The one-dimensional kernel on one row *)

(** X16: the body of the generalised ufunc adds into the row it is
    given.  For an operator that meets its invariant, a batch row of
    the input width and an output row of the output width, it
    completes, keeps the length of the output row, and leaves in cell
    [r] what the cell held with the contributions
    [data[col[i]] * S[i]] of the [i] with [row[i] = r] added onto it
    in ascending order of [i]. *)
Theorem sparse_dot_guvec_cells (op : SparseOperator F) (data data_out : list F)
    (shape_arr : list Z) :
  valid_operator op →
  length data = input_width op → length data_out = output_width op →
  ∃ out,
    sparse_dot_guvec data (op_col op) (op_row op) (op_S op) shape_arr data_out =
      Done out ∧
    length out = length data_out ∧
    ∀ r, r < output_width op →
      out !! r = Some (cell_sum (op_col op) (op_row op) (op_S op) data
                         (range (length (op_S op))) r (data_out !!! r)).
Proof.
  intros Hop Hd Ho.
  assert (Forall (λ i, i < length (op_S op)) (range (length (op_S op)))) as Hidx.
  { apply Forall_forall. intros i Hi. apply elem_of_seq in Hi. lia. }
  eexists. split_and!.
  - unfold sparse_dot_guvec. apply (row_loop_valid op Hop); [lia|done|done].
  - apply (row_fold_length op).
  - intros r Hr. rewrite <- (row_fold_cell op Hop) by done.
    apply list_lookup_lookup_total_lt. rewrite (row_fold_length op). lia.
Qed.

(** ** One output row per batch row *)

(** X17: an output row depends on its own batch row and on nothing
    else of the batch.  For an operator that meets its invariant and
    two rectangular batches with the operator's columns, a row that
    occurs in both, at whatever positions, gets the same output row at
    those positions. *)
Theorem apply_A_row_by_row (op : SparseOperator F) (batch1 batch2 : ndarray2 F)
    (j1 j2 : nat) (drow : list F) :
  valid_operator op →
  wf batch1 → wf batch2 →
  input_width op ≤ shape1 batch1 → input_width op ≤ shape1 batch2 →
  rows batch1 !! j1 = Some drow → rows batch2 !! j2 = Some drow →
  ∃ out1 out2 orow,
    apply_A op batch1 = Ok out1 ∧ apply_A op batch2 = Ok out2 ∧
    rows out1 !! j1 = Some orow ∧ rows out2 !! j2 = Some orow.
Proof.
  intros Hop Hb1 Hb2 Hw1 Hw2 Hj1 Hj2.
  destruct (apply_A_valid_Ok op batch1 Hop Hb1 Hw1) as (out1 & Hr1 & _).
  destruct (apply_A_valid_Ok op batch2 Hop Hb2 Hw2) as (out2 & Hr2 & _).
  pose proof Hr1 as Hr1'. pose proof Hr2 as Hr2'.
  rewrite apply_A_rows in Hr1', Hr2' by done.
  destruct (map_result _ (rows batch1)) as [rs1|] eqn:Hm1; [|done].
  destruct (map_result _ (rows batch2)) as [rs2|] eqn:Hm2; [|done].
  injection Hr1' as <-. injection Hr2' as <-.
  destruct (map_result_lookup _ _ _ _ _ Hm1 Hj1) as (o1 & Ho1 & Hk1).
  destruct (map_result_lookup _ _ _ _ _ Hm2 Hj2) as (o2 & Ho2 & Hk2).
  exists {| shape1 := output_width op; rows := rs1 |},
         {| shape1 := output_width op; rows := rs2 |}, o1.
  split_and!; [done|done|done|]. simpl. rewrite Ho2. congruence.
Qed.

(** ** Output cells no nonzero names *)

Lemma filter_none {A} (P : A → Prop) `{∀ x, Decision (P x)} (l : list A) :
  (∀ x, x ∈ l → ¬ P x) → filter P l = [].
Proof.
  induction l as [|x l IH]; intros Hl; [done|].
  rewrite filter_cons_False by (apply Hl; left).
  apply IH. intros y Hy. apply Hl. by right.
Qed.

(** X18: an output cell that no nonzero names stays zero.  For an
    operator that meets its invariant and a batch of its width, if the
    index [r] does not occur in [row] then [output[j, r]] is the zero
    the output was created with, in every row [j]. *)
Theorem apply_A_unnamed_cell (op : SparseOperator F) (batch : ndarray2 F) (r : nat) :
  valid_operator op → wf batch → shape1 batch = input_width op →
  r < output_width op → Z.of_nat r ∉ op_row op →
  ∃ out, apply_A op batch = Ok out ∧
    ∀ j, j < shape0 batch → getitem2 out (Z.of_nat j) (Z.of_nat r) = Some zero.
Proof.
  intros Hop Hb Hw Hr Hnot.
  destruct (apply_A_cells op batch) as (out & Hrun & _ & _ & _ & Hcell); [done..|].
  exists out. split; [done|]. intros j Hj.
  destruct (lookup_lt_is_Some_2 (rows batch) j Hj) as [drow Hdj].
  rewrite (Hcell j r drow Hdj Hr). f_equal. unfold cell_sum.
  rewrite filter_none; [done|].
  intros i Hi Heq. apply elem_of_seq in Hi. apply Hnot. rewrite <- Heq.
  apply list_elem_of_lookup_total_2. destruct Hop as (_ & -> & _). lia.
Qed.

End Kernel_facts.

(** * Concrete operators and batches *)

Ltac solve_Forall :=
  repeat first [apply Forall_nil_2 | apply Forall_cons_2]; simpl; try lia.

Ltac solve_valid :=
  unfold valid_operator; simpl; split_and!; [reflexivity|reflexivity|solve_Forall..].

Ltac solve_wf := unfold wf; simpl; solve_Forall; reflexivity.

Module Float64Facts.
Import Float64.

Local Abbreviation fadd := PrimFloat.add.
Local Abbreviation fmul := PrimFloat.mul.

Lemma valid_op3 : valid_operator op3.
Proof. solve_valid. Qed.

(** C7: on the operator with col = [0,1,1], row = [0,0,1], weight =
    [1.0,2.0,3.0] and widths 2 and 2, the batch [[1.0, 1.0]] gives
    exactly [[3.0, 3.0]]: the two contributions to cell [0,0] are
    summed. *)
Theorem apply_A_scenario :
  apply_A op3 batch11 = Ok {| shape1 := 2; rows := [[3; 3]%float] |}.
Proof. vm_compute. reflexivity. Qed.

Lemma apply_A_spec_witness :
  ∃ out, apply_A op3 batch3 = Ok out ∧ shape0 out = 3 ∧ shape1 out = 2.
Proof.
  destruct (apply_A_spec 0%float fadd fmul op3 batch3 valid_op3)
    as (_ & out & Hout & Hn & Hm & _); [solve_wf|reflexivity|].
  exists out. split_and!; assumption.
Defined.

Lemma sparse_dot_accumulates_witness :
  ∃ out, sparse_dot buffer11 batch11 (op_col op3) (op_row op3) (op_S op3) = Done out.
Proof.
  destruct (sparse_dot_accumulates 0%float fadd fmul op3 buffer11 batch11
              valid_op3) as ((out & Hout & _) & _ & _);
    [solve_wf|reflexivity|solve_wf|reflexivity|reflexivity|].
  exists out. exact Hout.
Defined.

(** The scenario's operator on a buffer holding [[10.0, 20.0]]. *)
Example sparse_dot_on_buffer :
  sparse_dot buffer11 batch11 (op_col op3) (op_row op3) (op_S op3) =
  Done {| shape1 := 2; rows := [[13; 23]%float] |}.
Proof. vm_compute. reflexivity. Qed.

Lemma chunk_invariance_witness :
  ∃ out, apply_A op3 batch3 = Ok out ∧ dr_out_pa op3 batch3 [2; 0; 1] = Ok out.
Proof.
  destruct (chunk_invariance 0%float fadd fmul op3 batch3 [2; 0; 1] valid_op3)
    as (out & H1 & H2 & _); [solve_wf|simpl; lia|reflexivity|].
  exists out. split; assumption.
Defined.

Lemma is_schedule_sched3 : is_schedule 3 3 sched3.
Proof.
  split; [unfold sched3; solve_Forall|].
  unfold range; simpl. solve_Forall; reflexivity.
Qed.

Lemma implementations_agree_witness :
  ∃ out, apply_A op3 batch3 = Ok out ∧ apply_A_pa sched3 op3 batch3 = Ok out ∧
         dr_out_pa op3 batch3 [1; 2] = Ok out.
Proof.
  destruct (implementations_agree 0%float fadd fmul op3 batch3 sched3 [1; 2]
              valid_op3) as (out & H1 & H2 & H3 & _);
    [solve_wf|reflexivity|exact is_schedule_sched3|reflexivity|].
  exists out. split_and!; assumption.
Defined.

Lemma apply_A_reads_only_col_witness :
  ∃ out, apply_A op_first batch_a = Ok out ∧ apply_A op_first batch_b = Ok out.
Proof.
  apply (apply_A_reads_only_col 0%float fadd fmul op_first batch_a batch_b);
    [solve_valid|solve_wf|solve_wf|simpl; lia|simpl; lia|reflexivity|].
  intros j c Hj Hc. simpl in Hj, Hc.
  apply list_elem_of_singleton in Hc as ->.
  destruct j as [|j]; [reflexivity|]. unfold shape0 in Hj; simpl in Hj. lia.
Defined.

(** C2 fails as stated: a batch of three columns for an operator of
    input width two raises nothing; [apply_A] returns an output. *)
Lemma shape_mismatch_not_raised :
  shape1 batch_wide ≠ input_width op3 ∧
  apply_A op3 batch_wide = Ok {| shape1 := 2; rows := [[3; 3]%float] |} ∧
  ¬ (shape1 batch_wide ≠ input_width op3 →
     apply_A op3 batch_wide = Err ShapeMismatch).
Proof.
  split_and!.
  - simpl. lia.
  - vm_compute. reflexivity.
  - intros H. assert (apply_A op3 batch_wide = Err ShapeMismatch) as He
      by (apply H; simpl; lia).
    vm_compute in He. discriminate He.
Qed.

(** On small integers, where nothing rounds, the binary64 kernel is
    linear on the nose: [3*[[1, 1]] - 2*[[2, 5]]]. *)
Example apply_A_linear_small :
  apply_A op3 (lin_array float PrimFloat.add PrimFloat.mul
                 3%float batch11 (-2)%float {| shape1 := 2; rows := [[2; 5]%float] |}) =
  Ok (lin_array float PrimFloat.add PrimFloat.mul
        3%float {| shape1 := 2; rows := [[3; 3]%float] |}
        (-2)%float {| shape1 := 2; rows := [[12; 15]%float] |}).
Proof. vm_compute. reflexivity. Qed.

Lemma apply_A_no_shape_check_witness :
  ∃ out, apply_A op3 batch_wide = Ok out ∧
         shape0 out = shape0 batch_wide ∧ shape1 out = output_width op3.
Proof.
  apply (proj2 (apply_A_no_shape_check 0%float fadd fmul op3 batch_wide));
    [exact valid_op3|solve_wf|simpl; lia].
Defined.

(** C6 fails as stated at binary64: with weight one half, the entry
    [2^1023] and the scalars 2 and 0, [2 * 2^1023] overflows, so
    [apply_A] of the combination is infinite, while the combination of
    the two outputs is [2 * 2^1022 = 2^1023], finite: no tolerance
    covers the difference. *)
Lemma linearity_overflow :
  apply_A op_half
    (lin_array float PrimFloat.add PrimFloat.mul 2%float batch_big 0%float batch_zero) =
    Ok {| shape1 := 1; rows := [[infinity]] |} ∧
  apply_A op_half batch_big = Ok {| shape1 := 1; rows := [[0x1p1022]%float] |} ∧
  apply_A op_half batch_zero = Ok {| shape1 := 1; rows := [[0]%float] |} ∧
  lin_array float PrimFloat.add PrimFloat.mul
    2%float {| shape1 := 1; rows := [[0x1p1022]%float] |}
    0%float {| shape1 := 1; rows := [[0]%float] |} =
    {| shape1 := 1; rows := [[0x1p1023]%float] |} ∧
  apply_A op_half
    (lin_array float PrimFloat.add PrimFloat.mul 2%float batch_big 0%float batch_zero) ≠
    Ok (lin_array float PrimFloat.add PrimFloat.mul
          2%float {| shape1 := 1; rows := [[0x1p1022]%float] |}
          0%float {| shape1 := 1; rows := [[0]%float] |}).
Proof.
  split_and!; try (vm_compute; reflexivity).
  intros Heq.
  apply (f_equal (λ r, match r with
                       | Ok a => classify (default nan (head (default [] (head (rows a)))))
                       | Err _ => FloatClass.NaN
                       end)) in Heq.
  vm_compute in Heq. discriminate Heq.
Qed.

(** C5 fails as stated: on the identity of one column the entry
    [-0.0] comes back as [+0.0], which is another binary64 value. *)
Lemma identity_negative_zero :
  apply_A op_id1 batch_negzero = Ok {| shape1 := 1; rows := [[0%float]] |} ∧
  apply_A op_id1 batch_negzero ≠ Ok batch_negzero.
Proof.
  assert (apply_A op_id1 batch_negzero = Ok {| shape1 := 1; rows := [[0%float]] |})
    as Hrun by (vm_compute; reflexivity).
  split; [exact Hrun|]. rewrite Hrun. intros Heq.
  apply (f_equal (λ r, match r with
                       | Ok a => classify (default nan (head (default [] (head (rows a)))))
                       | Err _ => FloatClass.NaN
                       end)) in Heq.
  vm_compute in Heq. discriminate Heq.
Qed.

Lemma apply_A_identity_witness : apply_A op_id2 batch_id2 = Ok batch_id2.
Proof.
  apply (apply_A_identity 0%float 1%float fadd fmul op_id2 batch_id2).
  - solve_valid.
  - reflexivity.
  - reflexivity.
  - simpl. solve_Forall; reflexivity.
  - simpl. apply Permutation_swap.
  - solve_wf.
  - reflexivity.
  - simpl. solve_Forall; reflexivity.
Defined.

(** C8 fails as stated: external data with a column index past the
    input width load without any error, into an operator that breaks
    the invariant. *)
Lemma load_accepts_out_of_bounds :
  load ds_bad 2 2 ≠ Err InvalidOperator ∧
  ∃ op, load ds_bad 2 2 = Ok op ∧ op_col op = [4%Z] ∧ ¬ valid_operator op.
Proof.
  split; [discriminate|]. eexists. split; [reflexivity|]. split; [reflexivity|].
  intros (_ & _ & Hcol & _). simpl in Hcol.
  apply Forall_cons_1 in Hcol as [Hc _]. vm_compute in Hc. destruct Hc as [_ Hc].
  discriminate Hc.
Qed.

Lemma load_no_validation_witness :
  ∃ op, load ds_good 2 2 = Ok op ∧ valid_operator op.
Proof.
  destruct (load_no_validation ds_good 2 2)
    as (op & Hload & _ & _ & _ & _ & _ & Hvalid).
  exists op. split; [exact Hload|].
  apply Hvalid; [reflexivity|reflexivity|simpl; solve_Forall|simpl; solve_Forall|lia|lia].
Defined.

End Float64Facts.

Module ExactZFacts.
Import ExactZ.

Lemma Z_semiring : semi_ring_theory 0%Z 1%Z Z.add Z.mul eq.
Proof. constructor; intros; lia. Qed.

Lemma apply_A_linear_witness :
  ∃ out1 out2,
    apply_A op3 batch1 = Ok out1 ∧ apply_A op3 batch2 = Ok out2 ∧
    apply_A op3 (lin_array Z Z.add Z.mul 3%Z batch1 (-2)%Z batch2) =
      Ok (lin_array Z Z.add Z.mul 3%Z out1 (-2)%Z out2).
Proof.
  apply (apply_A_linear 0%Z 1%Z Z.add Z.mul Z_semiring op3 3%Z (-2)%Z batch1 batch2);
    [solve_valid|solve_wf|solve_wf|reflexivity|reflexivity|reflexivity].
Defined.

End ExactZFacts.

Module Float64More.
Import Float64.

Local Abbreviation fadd := PrimFloat.add.
Local Abbreviation fmul := PrimFloat.mul.

Lemma valid_op3' : valid_operator op3.
Proof. solve_valid. Qed.

Lemma sparse_dot_keeps_shape_witness :
  ∃ out, apply_A op3 batch3 = Ok out ∧
         shape0 out = 3 ∧ shape1 out = 2 ∧ wf out.
Proof.
  destruct (apply_A op3 batch3) as [out|e] eqn:Hrun; [|vm_compute in Hrun; discriminate].
  exists out. split; [reflexivity|].
  exact (proj2 (sparse_dot_keeps_shape 0%float fadd fmul op3 buffer11 batch3
                  [] [] []) out Hrun).
Defined.

Lemma sparse_dot_frame_witness :
  ∃ out, sparse_dot buffer21 batch11 (op_col op3) (op_row op3) (op_S op3) = Done out ∧
         rows out !! 1 = Some [30; 40]%float.
Proof.
  destruct (sparse_dot_frame fadd fmul op3 buffer21 batch11 valid_op3')
    as (out & Hrun & Hkept);
    [solve_wf|simpl; lia|solve_wf|reflexivity|unfold shape0; simpl; lia|].
  exists out. split; [exact Hrun|].
  apply (Hkept 1). unfold shape0. simpl. lia.
Defined.

Lemma apply_A_nothing_to_do_witness :
  apply_A op_empty batch3 = Ok {| shape1 := 2; rows := [[0; 0]; [0; 0]; [0; 0]]%float |}.
Proof.
  apply (apply_A_nothing_to_do 0%float fadd fmul op_empty batch3).
  left. reflexivity.
Defined.

Lemma sparse_dot_twice_witness :
  ∃ out1 out2,
    sparse_dot buffer11 batch11 (op_col op3) (op_row op3) (op_S op3) = Done out1 ∧
    sparse_dot out1 batch11 (op_col op3) (op_row op3) (op_S op3) = Done out2.
Proof.
  destruct (sparse_dot_twice 0%float fadd fmul op3 buffer11 batch11 valid_op3')
    as (out1 & out2 & H1 & H2 & _);
    [solve_wf|reflexivity|solve_wf|reflexivity|reflexivity|].
  exists out1, out2. split; assumption.
Defined.

Lemma sparse_dot_guvec_call_spec_witness :
  sparse_dot_guvec_call float fadd fmul buffer3 batch3
    (op_col op3) (op_row op3) (op_S op3) (arange 2) =
  returned (sparse_dot buffer3 batch3 (op_col op3) (op_row op3) (op_S op3)).
Proof.
  apply (sparse_dot_guvec_call_spec 0%float fadd fmul op3 buffer3 batch3);
    [reflexivity|reflexivity|solve_wf|solve_wf|reflexivity|reflexivity].
Defined.

Lemma sparse_dot_guvec_app_witness :
  sparse_dot_guvec float fadd fmul [1; 1]%float ([0; 1] ++ [1])%Z ([0; 0] ++ [1])%Z
    ([1; 2] ++ [3])%float [] [0; 0]%float =
  Done [3; 3]%float.
Proof.
  rewrite (sparse_dot_guvec_app fadd fmul [1; 1]%float [0; 1]%Z [1]%Z [0; 0]%Z [1]%Z
             [1; 2]%float [3]%float [] [0; 0]%float eq_refl eq_refl).
  vm_compute. reflexivity.
Defined.

Lemma dr_out_pa_uniform_witness :
  ∃ out, apply_A op3 batch3 = Ok out ∧ dr_out_pa op3 batch3 (uniform_chunks 3 2) = Ok out.
Proof.
  destruct (dr_out_pa_uniform 0%float fadd fmul op3 batch3 2 valid_op3')
    as (_ & _ & out & H1 & H2); [solve_wf|simpl; lia|lia|].
  exists out. split; assumption.
Defined.

Lemma from_array_blocks_witness :
  shape0 <$> from_array batch3 [2; 0; 1] = [2; 0; 1] ∧
  concat (rows <$> from_array batch3 [2; 0; 1]) = rows batch3.
Proof.
  destruct (from_array_blocks batch3 [2; 0; 1]) as (H1 & _ & H2);
    [solve_wf|reflexivity|].
  split; assumption.
Defined.

Lemma sparse_dot_pa_any_buffer_witness :
  sparse_dot_pa float fadd fmul sched3 buffer3 batch3 (op_col op3) (op_row op3) (op_S op3) =
  sparse_dot buffer3 batch3 (op_col op3) (op_row op3) (op_S op3).
Proof.
  apply (sparse_dot_pa_any_buffer 0%float fadd fmul op3 sched3 buffer3 batch3 valid_op3');
    [solve_wf|reflexivity|solve_wf|reflexivity|reflexivity|].
  exact Float64Facts.is_schedule_sched3.
Defined.

Lemma load_then_apply_witness :
  ∃ op out, load ds_good 2 2 = Ok op ∧ apply_A op batch3 = Ok out.
Proof.
  destruct (load_then_apply 0%float fadd fmul ds_good 2 2 batch3)
    as (op & out & Hload & Hrun & _);
    [reflexivity|reflexivity|simpl; solve_Forall|simpl; solve_Forall|lia|lia
    |solve_wf|reflexivity|].
  exists op, out. split; assumption.
Defined.

Lemma sparse_dot_guvec_cells_witness :
  ∃ out, sparse_dot_guvec float fadd fmul [1; 1]%float (op_col op3) (op_row op3)
           (op_S op3) (arange 2) [10; 20]%float = Done out ∧ length out = 2.
Proof.
  destruct (sparse_dot_guvec_cells 0%float fadd fmul op3 [1; 1]%float [10; 20]%float
              (arange 2) valid_op3' eq_refl eq_refl) as (out & Hrun & Hlen & _).
  exists out. split; assumption.
Defined.

Lemma apply_A_row_by_row_witness :
  ∃ out1 out2 orow,
    apply_A op3 batch11 = Ok out1 ∧ apply_A op3 batch3 = Ok out2 ∧
    rows out1 !! 0 = Some orow ∧ rows out2 !! 0 = Some orow.
Proof.
  apply (apply_A_row_by_row 0%float fadd fmul op3 batch11 batch3 0 0 [1; 1]%float
           valid_op3');
    [solve_wf|solve_wf|simpl; lia|simpl; lia|reflexivity|reflexivity].
Defined.

Lemma apply_A_unnamed_cell_witness :
  ∃ out, apply_A op_id1' batch3 = Ok out ∧
    getitem2 out 0 1 = Some 0%float.
Proof.
  destruct (apply_A_unnamed_cell 0%float fadd fmul op_id1' batch3 1)
    as (out & Hrun & Hcell).
  - solve_valid.
  - solve_wf.
  - reflexivity.
  - simpl. lia.
  - simpl. intros Hin. apply list_elem_of_singleton in Hin. discriminate Hin.
  - exists out. split; [exact Hrun|]. apply (Hcell 0). unfold shape0. simpl. lia.
Defined.

End Float64More.
